(** * lpsd: power spectrum estimation on a logarithmic frequency axis

    A shallow embedding of [src/lpsd.py] and the properties of its
    frequency grid, resolution rule, segment loop and calibration factors.

    Conventions of the embedding.

    - A float is a real number or one of the IEEE special values
      ([npfloat]).  Rounding error and overflow are left out; a zero divisor
      is [+0.0], which is what every zero divisor of [lpsd] is (a rounded
      non-negative product, a square, a sum of squares, [float(Jdes - 1)]).
    - Python scalars ([float(fs) / N]) raise [ZeroDivisionError] on a zero
      divisor; numpy scalars and arrays give [inf] or [nan] instead.
    - Lines 130, 134 and 139 keep the Matlab spelling [bsxfun(@op, a, b)],
      and line 138 writes [m(jj)] and [L(jj)] for [m[jj]] and [L[jj]].  The
      embedding reads [bsxfun(@op, a, b)] as the element-wise operation with
      singleton expansion of a column (one entry per sample) against a row
      (one entry per segment), and every [np.] function with its numpy
      meaning: [np.mean] and [np.sum] without an axis reduce over all
      entries. *)

From Stdlib Require Import Reals Lra Lia ZArith List String Ascii Bool.
Import ListNotations.
Open Scope R_scope.

(** ** Comparisons of reals as booleans *)

Definition Rleb (a b : R) : bool := if Rle_dec a b then true else false.
Definition Rltb (a b : R) : bool := if Rlt_dec a b then true else false.
Definition Reqb (a b : R) : bool := if Req_dec_T a b then true else false.

(** ** Floats with the IEEE special values *)

Inductive npfloat : Type :=
| Fin (r : R)
| PInf
| NInf
| NaN.

Definition np_neg (a : npfloat) : npfloat :=
  match a with
  | Fin x => Fin (- x)
  | PInf => NInf
  | NInf => PInf
  | NaN => NaN
  end.

(** The infinity that has the sign of [x], [nan] for [x = 0]. *)
Definition signed_inf (x : R) : npfloat :=
  if Reqb x 0 then NaN else if Rltb 0 x then PInf else NInf.

Definition np_add (a b : npfloat) : npfloat :=
  match a, b with
  | NaN, _ | _, NaN => NaN
  | Fin x, Fin y => Fin (x + y)
  | PInf, NInf | NInf, PInf => NaN
  | PInf, _ | _, PInf => PInf
  | NInf, _ | _, NInf => NInf
  end.

Definition np_sub (a b : npfloat) : npfloat := np_add a (np_neg b).

Definition np_mul (a b : npfloat) : npfloat :=
  match a, b with
  | NaN, _ | _, NaN => NaN
  | Fin x, Fin y => Fin (x * y)
  | Fin x, PInf | PInf, Fin x => signed_inf x
  | Fin x, NInf | NInf, Fin x => signed_inf (- x)
  | PInf, PInf | NInf, NInf => PInf
  | PInf, NInf | NInf, PInf => NInf
  end.

Definition np_div (a b : npfloat) : npfloat :=
  match a, b with
  | NaN, _ | _, NaN => NaN
  | Fin x, Fin y => if Reqb y 0 then signed_inf x else Fin (x / y)
  | Fin _, (PInf | NInf) => Fin 0
  | PInf, Fin y => if Rltb y 0 then NInf else PInf
  | NInf, Fin y => if Rltb y 0 then PInf else NInf
  | (PInf | NInf), (PInf | NInf) => NaN
  end.

Definition np_exp (a : npfloat) : npfloat :=
  match a with
  | Fin x => Fin (exp x)
  | PInf => PInf
  | NInf => Fin 0
  | NaN => NaN
  end.

Definition np_log (a : npfloat) : npfloat :=
  match a with
  | Fin x => if Rltb 0 x then Fin (ln x) else if Reqb x 0 then NInf else NaN
  | PInf => PInf
  | NInf | NaN => NaN
  end.

Definition np_sqrt (a : npfloat) : npfloat :=
  match a with
  | Fin x => if Rltb x 0 then NaN else Fin (sqrt x)
  | PInf => PInf
  | NInf | NaN => NaN
  end.

(** Comparisons: every comparison with [nan] is false. *)
Definition np_le (a b : npfloat) : bool :=
  match a, b with
  | NaN, _ | _, NaN => false
  | NInf, _ | _, PInf => true
  | Fin x, Fin y => Rleb x y
  | PInf, _ | _, NInf => false
  end.

Definition np_lt (a b : npfloat) : bool :=
  match a, b with
  | NaN, _ | _, NaN => false
  | NInf, NInf | PInf, PInf => false
  | NInf, _ | _, PInf => true
  | Fin x, Fin y => Rltb x y
  | PInf, _ | _, NInf => false
  end.

Definition np_ge (a b : npfloat) : bool := np_le b a.
Definition np_gt (a b : npfloat) : bool := np_lt b a.

(** [np.round] rounds to the nearest integer and a tie to the even one. *)
Definition round_half_even (x : R) : Z :=
  let n := Zfloor x in
  let d := x - IZR n in
  if Rltb d (1 / 2) then n
  else if Rltb (1 / 2) d then (n + 1)%Z
  else if Z.even n then n else (n + 1)%Z.

Definition np_round (a : npfloat) : npfloat :=
  match a with
  | Fin x => Fin (IZR (round_half_even x))
  | _ => a
  end.

Definition np_floor (a : npfloat) : npfloat :=
  match a with
  | Fin x => Fin (IZR (Zfloor x))
  | _ => a
  end.

(** ** Exceptions and results *)

(** A message is the text of [str.format]'s result: literal text and the
    numbers put into it. *)
Inductive piece : Type :=
| Text (s : string)
| Num (v : R).

Definition message : Type := list piece.

Inductive exn : Type :=
| TypeError (msg : message)
    (** [raise TypeError(...)] on line 61 *)
| ValueError (msg : message) (rest : list R)
    (** [raise ValueError(msg, *rest)] on lines 63 to 83 *)
| IndexError
    (** [str.format] with fewer arguments than fields; an index outside [x] *)
| ZeroDivisionError
    (** a Python float divided by zero *)
| ArangeError
    (** [np.arange] refuses a length that is [inf] or [nan] *)
| BroadcastError.
    (** numpy refuses operands whose shapes do not match *)

Inductive result (A : Type) : Type :=
| Ok (a : A)
| Raise (e : exn).

Arguments Ok {A} a.
Arguments Raise {A} e.

Definition bind {A B : Type} (c : result A) (k : A -> result B) : result B :=
  match c with
  | Ok a => k a
  | Raise e => Raise e
  end.

Notation "x <- c ;; k" := (bind c (fun x => k))
  (at level 61, c at next level, right associativity).
Notation "c ;;; k" := (bind c (fun _ => k))
  (at level 61, right associativity).

(** [if not cond: raise e] *)
Definition check (cond : bool) (e : exn) : result unit :=
  if cond then Ok tt else Raise e.

Fixpoint mapM {A B : Type} (f : A -> result B) (l : list A) : result (list B) :=
  match l with
  | [] => Ok []
  | a :: l' => b <- f a ;; bs <- mapM f l' ;; Ok (b :: bs)
  end.

(** ** [str.format] with automatically numbered fields *)

(** Every [{}] takes the next positional argument, and a field without an
    argument raises [IndexError]; arguments left over are ignored. *)
Fixpoint py_format_from (tmpl : string) (args : list R) (acc : string)
  : result message :=
  match tmpl with
  | EmptyString => Ok [Text acc]
  | String "{"%char (String "}"%char rest) =>
      match args with
      | [] => Raise IndexError
      | a :: args' =>
          m <- py_format_from rest args' EmptyString ;;
          Ok (Text acc :: Num a :: m)
      end
  | String c rest => py_format_from rest args (acc ++ String c EmptyString)
  end.

Definition py_format (tmpl : string) (args : list R) : result message :=
  py_format_from tmpl args EmptyString.

(** ** Arrays *)

(** [np.arange(n, dtype=int)] and [range(n)] *)
Definition arange_int (n : Z) : list Z := map Z.of_nat (seq 0 (Z.to_nat n)).

(** [np.arange(v)] for a float [v]: the integers below [v], and an error
    when [v] is not finite. *)
Definition np_arange (v : npfloat) : result (list Z) :=
  match v with
  | Fin l => Ok (arange_int (Zceil l))
  | _ => Raise ArangeError
  end.

Fixpoint zip_with {A B C : Type} (f : A -> B -> C) (a : list A) (b : list B)
  : list C :=
  match a, b with
  | u :: a', v :: b' => f u v :: zip_with f a' b'
  | _, _ => []
  end.

(** [l[mask]]: the entries of [l] at which the mask holds, in order. *)
Fixpoint compress {A : Type} (mask : list bool) (l : list A) : list A :=
  match mask, l with
  | true :: mask', a :: l' => a :: compress mask' l'
  | false :: mask', _ :: l' => compress mask' l'
  | _, _ => []
  end.

(** [l[mask] = vals]: the entries at which the mask holds take the values of
    [vals] in order.  The values come from the same mask wherever [lpsd]
    assigns, so there are as many of them as entries to fill. *)
Fixpoint mask_set {A : Type} (l : list A) (mask : list bool) (vals : list A)
  : list A :=
  match l, mask with
  | a :: l', true :: mask' =>
      match vals with
      | v :: vals' => v :: mask_set l' mask' vals'
      | [] => l
      end
  | a :: l', false :: mask' => a :: mask_set l' mask' vals
  | _, _ => l
  end.

(** [l[mask] = v] for a scalar [v] *)
Fixpoint mask_fill {A : Type} (l : list A) (mask : list bool) (v : A)
  : list A :=
  match l, mask with
  | a :: l', b :: mask' => (if b then v else a) :: mask_fill l' mask' v
  | _, _ => l
  end.

Definition Rsum (l : list R) : R := fold_right Rplus 0 l.

(** ** The arguments of [lpsd] *)

(** The window argument is any Python object; a callable one maps a segment
    length to the window's coefficients. *)
Inductive pyobject : Type :=
| Callable (w : Z -> list R)
| NotCallable.

Definition callable (o : pyobject) : bool :=
  match o with
  | Callable _ => true
  | NotCallable => false
  end.

(** [float(a) / n] on Python scalars *)
Definition py_div (a : R) (n : Z) : result R :=
  if (n =? 0)%Z then Raise ZeroDivisionError else Ok (a / IZR n).

(** ** Complex numbers *)

Record complex : Type := mkC { Re : R; Im : R }.

(** A complex float: finite, or with a [nan] in it. *)
Inductive npcomplex : Type :=
| CFin (z : complex)
| CNaN.

(** [np.exp] of the purely imaginary number [theta * 1j] *)
Definition np_cis (theta : npfloat) : npcomplex :=
  match theta with
  | Fin t => CFin (mkC (cos t) (sin t))
  | _ => CNaN
  end.

(** The product of a float and a complex float *)
Definition np_scale (d : npfloat) (z : npcomplex) : npcomplex :=
  match d, z with
  | Fin a, CFin c => CFin (mkC (a * Re c) (a * Im c))
  | _, _ => CNaN
  end.

Definition np_cadd (a b : npcomplex) : npcomplex :=
  match a, b with
  | CFin u, CFin v => CFin (mkC (Re u + Re v) (Im u + Im v))
  | _, _ => CNaN
  end.

(** [np.sum] over all the entries of a complex array *)
Definition np_csum (l : list npcomplex) : npcomplex :=
  fold_right np_cadd (CFin (mkC 0 0)) l.

(** [np.abs] of a complex float *)
Definition np_cabs (z : npcomplex) : npfloat :=
  match z with
  | CFin c => Fin (sqrt (Re c * Re c + Im c * Im c))
  | CNaN => NaN
  end.

(** [v ** 2] *)
Definition np_sq (v : npfloat) : npfloat := np_mul v v.

(** [np.sum] and [np.mean] over all the entries of a real array; the mean
    of an array without entries is [0.0 / 0] = [nan]. *)
Definition np_sum (l : list npfloat) : npfloat := fold_right np_add (Fin 0) l.

Definition np_mean (l : list npfloat) : npfloat :=
  np_div (np_sum l) (Fin (INR (List.length l))).

(** The integer that an integer-valued float denotes *)
Definition as_int (v : npfloat) : Z :=
  match v with
  | Fin l => Zfloor l
  | _ => 0%Z
  end.

(** [x[i]]: an index below zero counts from the end. *)
Definition getitem (x : list R) (i : npfloat) : result npfloat :=
  match i with
  | Fin v =>
      let n := Z.of_nat (List.length x) in
      let k := Zfloor v in
      if ((0 <=? k) && (k <? n))%Z then Ok (Fin (nth (Z.to_nat k) x 0))
      else if ((- n <=? k) && (k <? 0))%Z
           then Ok (Fin (nth (Z.to_nat (n + k)) x 0))
           else Raise IndexError
  | _ => Raise IndexError
  end.

(** An element-wise operation on two vectors: equal lengths, or one of them
    a single entry that is expanded. *)
Definition broadcast {A B C : Type} (op : A -> B -> C) (a : list A) (b : list B)
  : result (list C) :=
  if (List.length a =? List.length b)%nat then Ok (zip_with op a b)
  else match a, b with
       | [u], _ => Ok (map (op u) b)
       | _, [v] => Ok (map (fun u => op u v) a)
       | _, _ => Raise BroadcastError
       end.

(** The window for a segment length; line 60 has raised for an object that
    is not callable. *)
Definition call_window (o : pyobject) (l : Z) : list R :=
  match o with
  | Callable w => w l
  | NotCallable => []
  end.

(** What [lpsd] hands back: a tuple of arrays and dicts. *)
Inductive pyvalue : Type :=
| Array (a : list npfloat)
| Dict (d : list (string * list npfloat)).

Module Lpsd.

Section Args.

Variables (x : list R) (windowfcn : pyobject).
Variables (fmin fmax : R) (Jdes Kdes Kmin : Z) (fs xi : R).

(** *** Lines 59 to 75: the checks on the arguments *)

Definition check_arguments : result unit :=
  check (callable windowfcn)
    (TypeError [Text "windowfcn must be callable"]) ;;;
  check (Rltb fmin fmax)
    (ValueError [Text "fmax must be greater than fmin"] []) ;;;
  check (0 <? Jdes)%Z
    (ValueError [Text "Jdes must be greater than 0"] []) ;;;
  check (0 <? Kdes)%Z
    (ValueError [Text "Kdes must be greater than 0"] []) ;;;
  check (0 <? Kmin)%Z
    (ValueError [Text "Kmin must be greater than 0"] []) ;;;
  check (Kmin <=? Kdes)%Z
    (ValueError [Text "Kdes must be greater than or equal to Kmin"] []) ;;;
  check (Rltb 0 fs)
    (ValueError [Text "fs must be greater than 0"] []) ;;;
  check (Rleb 0 xi && Rltb xi 1)
    (ValueError [Text "xi must be: 0 <= xi 1"] []).

(** *** Lines 77 to 83 *)

Definition N : Z := Z.of_nat (List.length x).

Definition jj : list Z := arange_int Jdes.

(** Line 81 closes [format]'s parenthesis after its first argument: the
    template has two fields, [format] receives one number, and [fmin] is
    passed to [ValueError] instead. *)
Definition check_range : result unit :=
  lowest <- py_div fs N ;;
  (if Rleb lowest fmin then Ok tt
   else
     v <- py_div fs N ;;
     msg <- py_format "The lowest possible frequency is {}, but fmin={}" [v] ;;
     Raise (ValueError msg [fmin])) ;;;
  (if Rleb fmax (fs / 2) then Ok tt
   else
     msg <- py_format "The Nyquist rate is {}, byt fmax={}" [fs / 2; fmax] ;;
     Raise (ValueError msg [])).

(** *** Lines 85 to 87: the frequency grid and the desired resolutions *)

Definition g : npfloat := np_sub (np_log (Fin fmax)) (np_log (Fin fmin)).

(** [fmin * np.exp(jj * g / float(Jdes - 1))] at one index *)
Definition grid_point (j : Z) : npfloat :=
  np_mul (Fin fmin)
    (np_exp (np_div (np_mul (Fin (IZR j)) g) (Fin (IZR (Jdes - 1))))).

Definition f : list npfloat := map grid_point jj.

Definition rp : list npfloat :=
  map (fun j =>
         np_mul (grid_point j)
           (np_sub (np_exp (np_div g (Fin (IZR (Jdes - 1))))) (Fin 1)))
      jj.

(** *** Lines 93 to 107: the adjusted resolutions *)

(** [N] is not zero here: line 80 has divided by it. *)
Definition ravg : R := (fs / IZR N) * (1 + (1 - xi) * IZR (Kdes - 1)).
Definition rmin : R := (fs / IZR N) * (1 + (1 - xi) * IZR (Kmin - 1)).

Definition case1 : list bool := map (fun v => np_ge v (Fin ravg)) rp.

Definition case2 : list bool :=
  zip_with andb
    (map (fun v => np_lt v (Fin ravg)) rp)
    (map (fun v => np_gt (np_sqrt (np_mul (Fin ravg) v)) (Fin rmin)) rp).

Definition case3 : list bool := map negb (zip_with orb case1 case2).

Definition rpp_zeros : list npfloat := repeat (Fin 0) (Z.to_nat Jdes).

Definition rpp_case1 : list npfloat :=
  mask_set rpp_zeros case1 (compress case1 rp).

Definition rpp_case2 : list npfloat :=
  mask_set rpp_case1 case2
    (map (fun v => np_sqrt (np_mul (Fin ravg) v)) (compress case2 rp)).

Definition rpp : list npfloat := mask_fill rpp_case2 case3 (Fin rmin).

(** *** Lines 112 to 114 *)

Definition L : list npfloat :=
  map (fun v => np_round (np_div (Fin fs) v)) rpp.

Definition r : list npfloat := map (fun l => np_div (Fin fs) l) L.

Definition m : list npfloat := zip_with np_div f r.

(** *** Lines 123 to 146: one pass of the loop over the frequencies *)

Section Bin.

Variables (Lj mj : npfloat).

Definition D : npfloat := np_round (np_mul (Fin (1 - xi)) Lj).

Definition K : npfloat :=
  np_floor (np_add (np_div (np_sub (Fin (IZR N)) Lj) D) (Fin 1)).

(** The selector matrix, one row of the list per segment (a column of the
    source's matrix): entry [n] of segment [k] is [n + D * k]. *)
Definition selector (ns ks : list Z) : list (list npfloat) :=
  map (fun k => map (fun n => np_add (Fin (IZR n)) (np_mul D (Fin (IZR k)))) ns)
      ks.

(** Line 134: [np.mean(data)] is one number, the mean of all the entries of
    all the segments, and it is taken from every entry. *)
Definition detrend (data : list (list npfloat)) : list (list npfloat) :=
  let mu := np_mean (List.concat data) in
  map (map (fun v => np_sub v mu)) data.

Definition sinusoid (ns : list Z) : list npcomplex :=
  map (fun n =>
         np_cis (np_div (np_mul (np_mul (Fin (- 2 * PI)) (Fin (IZR n))) mj) Lj))
      ns.

(** Line 142: [np.sum(data)] is one number, the sum of all the entries of
    all the segments, and [np.mean] of one number is that number. *)
Definition power (data : list (list npcomplex)) : npfloat :=
  np_sq (np_cabs (np_csum (List.concat data))).

(** Lines 130 and 131: the segments cut from [x] *)
Definition segments : result (list (list npfloat)) :=
  ns <- np_arange Lj ;;
  ks <- np_arange K ;;
  mapM (mapM (getitem x)) (selector ns ks).

(** Line 137 *)
Definition window : list R := call_window windowfcn (as_int Lj).

(** Lines 138 and 139: [sinusoid * window] *)
Definition weights : result (list npcomplex) :=
  ns <- np_arange Lj ;;
  broadcast (fun z w => np_scale (Fin w) z) (sinusoid ns) window.

(** Lines 134 to 139: the segments without their mean, times the window
    and the sinusoid *)
Definition weighted : result (list (list npcomplex)) :=
  data <- segments ;;
  ws <- weights ;;
  mapM (fun seg => broadcast np_scale seg ws) (detrend data).

(** The pass gives [Pxx[jj]], [S1[jj]] and [S2[jj]]. *)
Definition bin : result (npfloat * (R * R)) :=
  data <- weighted ;;
  Ok (power data, (Rsum window, Rsum (map (fun w => w ^ 2) window))).

End Bin.

(** *** The whole function *)

Record locals : Type := mkLocals {
  Pxx : list npfloat;
  S1 : list R;
  S2 : list R;
  C : list (string * list npfloat)
}.

(** Lines 149 to 152 *)
Definition calibration (S1 S2 : list R) : list (string * list npfloat) :=
  [ ("PS"%string, map (fun s => np_div (Fin 2) (np_sq (Fin s))) S1);
    ("PSD"%string, map (fun s => np_div (Fin 2) (np_mul (Fin fs) (Fin s))) S2) ].

(** The state at line 154, before [return]. *)
Definition lpsd_locals : result locals :=
  check_arguments ;;;
  check_range ;;;
  bins <- mapM (fun lm => bin (fst lm) (snd lm)) (combine L m) ;;
  let S1 := map (fun b => fst (snd b)) bins in
  let S2 := map (fun b => snd (snd b)) bins in
  Ok (mkLocals (map fst bins) S1 S2 (calibration S1 S2)).

(** Line 154: [return Pxx, f] *)
Definition lpsd : result (list pyvalue) :=
  st <- lpsd_locals ;;
  Ok [Array (Pxx st); Array f].

End Args.

End Lpsd.

(** ** What the specification says of the loop

    Two definitions that follow the specification's words instead of the
    source, to be compared with [Lpsd.detrend] and [Lpsd.power]. *)

Module Spec.

(** "Subtract each segment's own mean from itself." *)
Definition detrend_per_segment (data : list (list npfloat))
  : list (list npfloat) :=
  map (fun seg => map (fun v => np_sub v (np_mean seg)) seg) data.

(** "Per-segment complex sum, then average of squared magnitude across the
    segments." *)
Definition power_per_segment (data : list (list npcomplex)) : npfloat :=
  np_mean (map (fun seg => np_sq (np_cabs (np_csum seg))) data).

(** "Multiply each detrended segment, sample index [n], by
    [window[n] * exp(-2 pi i n m[j] / L[j])]." *)
Definition weigh (ws : list npcomplex) (data : list (list npfloat))
  : list (list npcomplex) :=
  map (fun seg => zip_with np_scale seg ws) data.

(** Steps 3 to 5 of the specification, from the segments and the weights *)
Definition Pxx (ws : list npcomplex) (segments : list (list npfloat))
  : npfloat :=
  power_per_segment (weigh ws (detrend_per_segment segments)).

End Spec.

(** ** Inputs and outcomes *)

(** An input passes the validation when none of the checks raises. *)
Definition valid (x : list R) (windowfcn : pyobject)
  (fmin fmax : R) (Jdes Kdes Kmin : Z) (fs xi : R) : Prop :=
  Lpsd.check_arguments windowfcn fmin fmax Jdes Kdes Kmin fs xi = Ok tt /\
  Lpsd.check_range x fmin fmax fs = Ok tt.

(** The exceptions of [lpsd]'s own [raise] statements, which say what is
    wrong; the others come out of the operations [lpsd] performs. *)
Definition raised_by_check (e : exn) : bool :=
  match e with
  | TypeError _ | ValueError _ _ => true
  | _ => false
  end.

(** The all-ones window *)
Definition rectangular : pyobject :=
  Callable (fun l => repeat 1 (Z.to_nat l)).

(** Two records to run [lpsd] on *)
Definition record4 : list R := [1; 0; 3; 0].

(** The message of line 83 *)
Definition nyquist_message (fs fmax : R) : message :=
  [Text "The Nyquist rate is "; Num (fs / 2); Text ", byt fmax="; Num fmax;
   Text ""].

(** * Properties *)

(** ** The boolean comparisons *)

Lemma Rleb_spec (a b : R) : Rleb a b = true <-> a <= b.
Proof. unfold Rleb. destruct (Rle_dec a b); split; intros; congruence || lra. Qed.

Lemma Rltb_spec (a b : R) : Rltb a b = true <-> a < b.
Proof. unfold Rltb. destruct (Rlt_dec a b); split; intros; congruence || lra. Qed.

Lemma Reqb_spec (a b : R) : Reqb a b = true <-> a = b.
Proof. unfold Reqb. destruct (Req_dec_T a b); split; intros; congruence. Qed.

Lemma Rleb_true (a b : R) : a <= b -> Rleb a b = true.
Proof. apply Rleb_spec. Qed.

Lemma Rleb_false (a b : R) : b < a -> Rleb a b = false.
Proof.
  intros H. destruct (Rleb a b) eqn:E; [|reflexivity].
  apply Rleb_spec in E. lra.
Qed.

Lemma Rltb_true (a b : R) : a < b -> Rltb a b = true.
Proof. apply Rltb_spec. Qed.

Lemma Rltb_false (a b : R) : b <= a -> Rltb a b = false.
Proof.
  intros H. destruct (Rltb a b) eqn:E; [|reflexivity].
  apply Rltb_spec in E. lra.
Qed.

Lemma Reqb_true (a b : R) : a = b -> Reqb a b = true.
Proof. apply Reqb_spec. Qed.

Lemma Reqb_false (a b : R) : a <> b -> Reqb a b = false.
Proof.
  intros H. destruct (Reqb a b) eqn:E; [|reflexivity].
  apply Reqb_spec in E. contradiction.
Qed.

(** ** Rounding *)

Lemma round_half_even_bounds (v : R) :
  v - 1 / 2 <= IZR (round_half_even v) <= v + 1 / 2.
Proof.
  unfold round_half_even.
  pose proof (Zfloor_bound v) as [Hlo Hhi].
  destruct (Rltb (v - IZR (Zfloor v)) (1 / 2)) eqn:E1.
  - apply Rltb_spec in E1. lra.
  - destruct (Rltb (1 / 2) (v - IZR (Zfloor v))) eqn:E2.
    + apply Rltb_spec in E2. rewrite plus_IZR. lra.
    + assert (v - IZR (Zfloor v) = 1 / 2) as Hd.
      { destruct (Rlt_dec (v - IZR (Zfloor v)) (1 / 2)) as [H|H].
        - apply Rltb_true in H. congruence.
        - destruct (Rlt_dec (1 / 2) (v - IZR (Zfloor v))) as [H'|H'].
          + apply Rltb_true in H'. congruence.
          + lra. }
      destruct (Z.even (Zfloor v)); [|rewrite plus_IZR]; lra.
Qed.

Lemma round_half_even_IZR (z : Z) : round_half_even (IZR z) = z.
Proof.
  unfold round_half_even. rewrite ZfloorZ.
  rewrite Rltb_true by lra. reflexivity.
Qed.

Lemma round_half_even_le (v : R) (n : Z) :
  v <= IZR n -> (round_half_even v <= n)%Z.
Proof.
  intros H. pose proof (round_half_even_bounds v) as [_ Hhi].
  apply Z.lt_succ_r. apply lt_IZR. rewrite succ_IZR. lra.
Qed.

Lemma round_half_even_nonneg (v : R) : 0 <= v -> (0 <= round_half_even v)%Z.
Proof.
  intros H. pose proof (round_half_even_bounds v) as [Hlo _].
  assert (-1 < round_half_even v)%Z; [|lia].
  apply lt_IZR. lra.
Qed.



(** A tie between an even integer and the next one goes to the even one. *)
Lemma round_half_even_tie (n : Z) :
  Z.even n = true -> round_half_even (IZR n + 1 / 2) = n.
Proof.
  intros He. unfold round_half_even.
  assert (Zfloor (IZR n + 1 / 2) = n) as ->.
  { apply Zfloor_eq. lra. }
  rewrite Rltb_false by lra. rewrite Rltb_false by lra.
  rewrite He. reflexivity.
Qed.

(** ** Lists, masks and the result monad *)

Lemma arange_int_length (n : Z) : List.length (arange_int n) = Z.to_nat n.
Proof. unfold arange_int. now rewrite length_map, length_seq. Qed.

Lemma arange_int_nth (n : Z) (j : nat) (d : Z) :
  (j < Z.to_nat n)%nat -> nth j (arange_int n) d = Z.of_nat j.
Proof.
  intros H. unfold arange_int.
  rewrite (nth_indep _ d (Z.of_nat 0)) by now rewrite length_map, length_seq.
  rewrite map_nth, seq_nth by assumption. reflexivity.
Qed.

Lemma arange_int_In (n k : Z) : In k (arange_int n) <-> (0 <= k < n)%Z.
Proof.
  unfold arange_int. rewrite in_map_iff. split.
  - intros (i & <- & Hi). apply in_seq in Hi. lia.
  - intros H. exists (Z.to_nat k). split; [lia|]. apply in_seq. lia.
Qed.

Lemma nth_map_lt {A B : Type} (h : A -> B) (l : list A) (j : nat) (d : A) (e : B) :
  (j < List.length l)%nat -> nth j (map h l) e = h (nth j l d).
Proof.
  intros H. rewrite (nth_indep _ e (h d)) by now rewrite length_map.
  apply map_nth.
Qed.

Lemma zip_with_length {A B C : Type} (h : A -> B -> C) (a : list A) (b : list B) :
  List.length a = List.length b -> List.length (zip_with h a b) = List.length a.
Proof.
  revert b. induction a as [|u a IH]; intros [|v b] H; simpl in *; try lia.
  now rewrite IH by lia.
Qed.

Lemma zip_with_nth {A B C : Type} (h : A -> B -> C) (a : list A) (b : list B)
  (j : nat) (da : A) (db : B) (dc : C) :
  List.length a = List.length b -> (j < List.length a)%nat ->
  nth j (zip_with h a b) dc = h (nth j a da) (nth j b db).
Proof.
  revert b j. induction a as [|u a IH]; intros [|v b] j H Hj; simpl in *; try lia.
  destruct j as [|j]; [reflexivity|]. apply IH; lia.
Qed.

Lemma mask_set_length {A : Type} (l : list A) (mask : list bool) (vals : list A) :
  List.length (mask_set l mask vals) = List.length l.
Proof.
  revert mask vals. induction l as [|a l IH]; intros [|[] mask] vals; simpl; trivial.
  - destruct vals; simpl; [reflexivity|]. now rewrite IH.
  - now rewrite IH.
Qed.

Lemma mask_fill_length {A : Type} (l : list A) (mask : list bool) (v : A) :
  List.length (mask_fill l mask v) = List.length l.
Proof.
  revert mask. induction l as [|a l IH]; intros [|b mask]; simpl; trivial.
  now rewrite IH.
Qed.

(** [l[mask] = h(src[mask])] changes the entries under the mask, each into
    the image of the entry of [src] at its own place. *)
Lemma mask_set_nth {A : Type} (h : A -> A) (l src : list A) (mask : list bool)
  (j : nat) (d : A) :
  List.length mask = List.length l -> List.length src = List.length l ->
  (j < List.length l)%nat ->
  nth j (mask_set l mask (map h (compress mask src))) d =
  if nth j mask false then h (nth j src d) else nth j l d.
Proof.
  revert src mask j.
  induction l as [|a l IH]; intros [|s src] [|b mask] j Hm Hs Hj;
    simpl in *; try lia.
  destruct b; simpl.
  - destruct j as [|j]; [reflexivity|]. apply IH; lia.
  - destruct j as [|j]; [reflexivity|]. apply IH; lia.
Qed.

Lemma mask_fill_nth {A : Type} (l : list A) (mask : list bool) (v : A)
  (j : nat) (d : A) :
  List.length mask = List.length l -> (j < List.length l)%nat ->
  nth j (mask_fill l mask v) d = if nth j mask false then v else nth j l d.
Proof.
  revert mask j.
  induction l as [|a l IH]; intros [|b mask] j Hm Hj; simpl in *; try lia.
  destruct j as [|j]; [reflexivity|]. apply IH; lia.
Qed.

Lemma bind_ok {A B : Type} (c : result A) (k : A -> result B) (b : B) :
  bind c k = Ok b -> exists a, c = Ok a /\ k a = Ok b.
Proof. destruct c as [a|e]; simpl; [eauto|discriminate]. Qed.

Lemma mapM_ok_length {A B : Type} (h : A -> result B) (l : list A) (bs : list B) :
  mapM h l = Ok bs -> List.length bs = List.length l.
Proof.
  revert bs. induction l as [|a l IH]; simpl; intros bs H.
  - now inversion H.
  - apply bind_ok in H as (b & _ & H). apply bind_ok in H as (bs' & Hbs & H).
    inversion H; subst. simpl. f_equal. now apply IH.
Qed.


(** A loop whose every pass returns, returns. *)
Lemma mapM_total {A B : Type} (h : A -> result B) (l : list A) :
  (forall a, In a l -> exists b, h a = Ok b) -> exists bs, mapM h l = Ok bs.
Proof.
  induction l as [|a l IH]; intros H; simpl; [eauto|].
  destruct (H a) as [b Hb]; [now left|]. rewrite Hb. simpl.
  destruct IH as [bs Hbs]; [intros; apply H; now right|].
  rewrite Hbs. simpl. eauto.
Qed.


Lemma bind_raise {A B : Type} (c : result A) (k : A -> result B) (e : exn) :
  bind c k = Raise e -> c = Raise e \/ exists a, c = Ok a /\ k a = Raise e.
Proof. destruct c as [a|e']; simpl; intros H; [eauto|left; congruence]. Qed.

Lemma mapM_raise_inv {A B : Type} (h : A -> result B) (l : list A) (e : exn) :
  mapM h l = Raise e -> exists a, In a l /\ h a = Raise e.
Proof.
  induction l as [|u l IH]; simpl; intros H; [discriminate|].
  apply bind_raise in H as [H|(b & Hb & H)].
  - exists u. auto.
  - apply bind_raise in H as [H|(bs & Hbs & H)]; [|discriminate].
    destruct (IH H) as (a & Ha & He). exists a. auto.
Qed.

Lemma mapM_ok_In {A B : Type} (h : A -> result B) (l : list A) (bs : list B) (b : B) :
  mapM h l = Ok bs -> In b bs -> exists a, In a l /\ h a = Ok b.
Proof.
  revert bs. induction l as [|u l IH]; simpl; intros bs H Hin.
  - inversion H; subst. contradiction.
  - apply bind_ok in H as (b' & Hb' & H). apply bind_ok in H as (bs' & Hbs & H).
    inversion H; subst. destruct Hin as [->|Hin].
    + exists u. auto.
    + destruct (IH bs' Hbs Hin) as (a & Ha & He). exists a. auto.
Qed.



Lemma Zceil_IZR (z : Z) : Zceil (IZR z) = z.
Proof. unfold Zceil. rewrite ZfloorNZ. lia. Qed.

(** ** Floats *)

Lemma np_lt_le (a b : npfloat) : np_lt a b = true -> np_le a b = true.
Proof.
  destruct a, b; simpl; try congruence.
  intros H. apply Rltb_spec in H. apply Rleb_true. lra.
Qed.

Lemma np_le_Fin_trans (u v : R) (b : npfloat) :
  u <= v -> np_le (Fin v) b = true -> np_le (Fin u) b = true.
Proof.
  intros Huv. destruct b; simpl; try congruence.
  intros H. apply Rleb_spec in H. apply Rleb_true. lra.
Qed.

Lemma np_arange_raise (v : npfloat) (e : exn) :
  np_arange v = Raise e -> e = ArangeError.
Proof. destruct v; simpl; congruence. Qed.

Lemma np_arange_IZR (z : Z) : np_arange (Fin (IZR z)) = Ok (arange_int z).
Proof. simpl. now rewrite Zceil_IZR. Qed.

Lemma getitem_raise (x : list R) (i : npfloat) (e : exn) :
  getitem x i = Raise e -> e = IndexError.
Proof.
  destruct i; simpl; try congruence.
  repeat match goal with |- context [if ?c then _ else _] => destruct c end;
    congruence.
Qed.

Lemma getitem_in_range (x : list R) (k : Z) :
  (0 <= k < Z.of_nat (List.length x))%Z ->
  getitem x (Fin (IZR k)) = Ok (Fin (nth (Z.to_nat k) x 0)).
Proof.
  intros H. unfold getitem. rewrite ZfloorZ.
  assert ((0 <=? k)%Z && (k <? Z.of_nat (List.length x))%Z = true) as ->.
  { apply andb_true_intro. split; [apply Z.leb_le|apply Z.ltb_lt]; lia. }
  reflexivity.
Qed.

Lemma broadcast_raise {A B C : Type} (op : A -> B -> C) (a : list A) (b : list B)
  (e : exn) :
  broadcast op a b = Raise e -> e = BroadcastError.
Proof.
  unfold broadcast. destruct (List.length a =? List.length b)%nat; [discriminate|].
  destruct a as [|u [|u' a]], b as [|v [|v' b]]; congruence.
Qed.


Section Properties.

Variables (x : list R) (windowfcn : pyobject).
Variables (fmin fmax : R) (Jdes Kdes Kmin : Z) (fs xi : R).

Local Abbreviation Valid := (valid x windowfcn fmin fmax Jdes Kdes Kmin fs xi).
Local Abbreviation N := (Lpsd.N x).
Local Abbreviation g := (Lpsd.g fmin fmax).
Local Abbreviation grid_point := (Lpsd.grid_point fmin fmax Jdes).
Local Abbreviation f := (Lpsd.f fmin fmax Jdes).
Local Abbreviation rp := (Lpsd.rp fmin fmax Jdes).
Local Abbreviation ravg := (Lpsd.ravg x Kdes fs xi).
Local Abbreviation rmin := (Lpsd.rmin x Kmin fs xi).
Local Abbreviation case1 := (Lpsd.case1 x fmin fmax Jdes Kdes fs xi).
Local Abbreviation case2 := (Lpsd.case2 x fmin fmax Jdes Kdes Kmin fs xi).
Local Abbreviation case3 := (Lpsd.case3 x fmin fmax Jdes Kdes Kmin fs xi).
Local Abbreviation rpp := (Lpsd.rpp x fmin fmax Jdes Kdes Kmin fs xi).
Local Abbreviation L := (Lpsd.L x fmin fmax Jdes Kdes Kmin fs xi).
Local Abbreviation m := (Lpsd.m x fmin fmax Jdes Kdes Kmin fs xi).
Local Abbreviation lpsd_locals :=
  (Lpsd.lpsd_locals x windowfcn fmin fmax Jdes Kdes Kmin fs xi).
Local Abbreviation lpsd := (Lpsd.lpsd x windowfcn fmin fmax Jdes Kdes Kmin fs xi).

(** *** What the validation establishes *)

Lemma check_arguments_inv :
  Lpsd.check_arguments windowfcn fmin fmax Jdes Kdes Kmin fs xi = Ok tt ->
  callable windowfcn = true /\ fmin < fmax /\
  (0 < Jdes)%Z /\ (0 < Kdes)%Z /\ (0 < Kmin)%Z /\ (Kmin <= Kdes)%Z /\
  0 < fs /\ 0 <= xi < 1.
Proof.
  unfold Lpsd.check_arguments, check.
  destruct (callable windowfcn); [|discriminate].
  destruct (Rltb fmin fmax) eqn:E1; [|discriminate].
  destruct (0 <? Jdes)%Z eqn:E2; [|discriminate].
  destruct (0 <? Kdes)%Z eqn:E3; [|discriminate].
  destruct (0 <? Kmin)%Z eqn:E4; [|discriminate].
  destruct (Kmin <=? Kdes)%Z eqn:E5; [|discriminate].
  destruct (Rltb 0 fs) eqn:E6; [|discriminate].
  destruct (Rleb 0 xi && Rltb xi 1) eqn:E7; [|discriminate].
  intros _. apply andb_prop in E7 as [E7 E8].
  apply Rltb_spec in E1, E6, E8. apply Rleb_spec in E7.
  repeat split; try assumption; lia.
Qed.

Lemma check_range_inv :
  Lpsd.check_range x fmin fmax fs = Ok tt ->
  (0 < N)%Z /\ fs / IZR N <= fmin /\ fmax <= fs / 2.
Proof.
  unfold Lpsd.check_range, py_div.
  destruct (N =? 0)%Z eqn:EN; [discriminate|].
  cbn [bind].
  destruct (Rleb (fs / IZR N) fmin) eqn:E1; [|discriminate].
  destruct (Rleb fmax (fs / 2)) eqn:E2; [|discriminate].
  intros _. apply Rleb_spec in E1, E2.
  repeat split; try assumption.
  unfold Lpsd.N in *. lia.
Qed.

Lemma valid_inv :
  Valid ->
  fmin < fmax /\ (0 < Jdes)%Z /\ (0 < Kmin)%Z /\ (Kmin <= Kdes)%Z /\
  0 < fs /\ 0 <= xi < 1 /\ 1 <= IZR N /\ fs / IZR N <= fmin /\
  fmax <= fs / 2 /\ 0 < fs / IZR N.
Proof.
  intros [Ha Hr].
  apply check_arguments_inv in Ha as (_ & H1 & H2 & _ & H4 & H5 & H6 & H7).
  apply check_range_inv in Hr as (HN & H8 & H9).
  assert (1 <= IZR N) by (apply IZR_le; lia).
  repeat split; try assumption; try tauto.
  apply Rdiv_lt_0_compat; lra.
Qed.

Lemma rmin_pos : Valid -> 0 < rmin.
Proof.
  intros H. apply valid_inv in H as (_ & _ & HK & _ & _ & Hxi & _ & _ & _ & Hq).
  unfold Lpsd.rmin. apply Rmult_lt_0_compat; [assumption|].
  assert (0 <= IZR (Kmin - 1)) by (apply IZR_le; lia). nra.
Qed.

(** [rmin] is at least the resolution of the whole record. *)
Lemma rmin_lower : Valid -> fs / IZR N <= rmin.
Proof.
  intros H. apply valid_inv in H as (_ & _ & HK & _ & _ & Hxi & _ & _ & _ & Hq).
  unfold Lpsd.rmin.
  assert (0 <= IZR (Kmin - 1)) by (apply IZR_le; lia).
  assert (0 <= (1 - xi) * IZR (Kmin - 1)) by (apply Rmult_le_pos; lra).
  set (q := fs / IZR N) in *. nra.
Qed.

Lemma rmin_le_ravg : Valid -> rmin <= ravg.
Proof.
  intros H. apply valid_inv in H as (_ & _ & _ & HK & _ & Hxi & _ & _ & _ & Hq).
  unfold Lpsd.rmin, Lpsd.ravg.
  assert (IZR (Kmin - 1) <= IZR (Kdes - 1)) by (apply IZR_le; lia).
  assert ((1 - xi) * IZR (Kmin - 1) <= (1 - xi) * IZR (Kdes - 1))
    by (apply Rmult_le_compat_l; lra).
  set (q := fs / IZR N) in *. nra.
Qed.

(** *** The lengths of the arrays *)

Lemma rp_length : List.length rp = Z.to_nat Jdes.
Proof. unfold Lpsd.rp, Lpsd.jj. now rewrite length_map, arange_int_length. Qed.

Lemma f_length : List.length f = Z.to_nat Jdes.
Proof. unfold Lpsd.f, Lpsd.jj. now rewrite length_map, arange_int_length. Qed.

Lemma case1_length : List.length case1 = Z.to_nat Jdes.
Proof. unfold Lpsd.case1. now rewrite length_map, rp_length. Qed.

Lemma case2_length : List.length case2 = Z.to_nat Jdes.
Proof.
  unfold Lpsd.case2. rewrite zip_with_length; rewrite !length_map; trivial.
  apply rp_length.
Qed.

Lemma case3_length : List.length case3 = Z.to_nat Jdes.
Proof.
  unfold Lpsd.case3. rewrite length_map, zip_with_length.
  - apply case1_length.
  - now rewrite case1_length, case2_length.
Qed.

Lemma rpp_length : List.length rpp = Z.to_nat Jdes.
Proof.
  unfold Lpsd.rpp, Lpsd.rpp_case2, Lpsd.rpp_case1, Lpsd.rpp_zeros.
  now rewrite mask_fill_length, !mask_set_length, repeat_length.
Qed.

Lemma L_length : List.length L = Z.to_nat Jdes.
Proof. unfold Lpsd.L. now rewrite length_map, rpp_length. Qed.

Lemma m_length : List.length m = Z.to_nat Jdes.
Proof.
  unfold Lpsd.m. rewrite zip_with_length; [apply f_length|].
  unfold Lpsd.r. now rewrite length_map, L_length, f_length.
Qed.

(** *** The three masks and the adjusted resolution at one index *)

Lemma case1_nth (j : nat) :
  (j < Z.to_nat Jdes)%nat ->
  nth j case1 false = np_ge (nth j rp NaN) (Fin ravg).
Proof.
  intros Hj. unfold Lpsd.case1.
  apply nth_map_lt. now rewrite rp_length.
Qed.

Lemma case2_nth (j : nat) :
  (j < Z.to_nat Jdes)%nat ->
  nth j case2 false =
  np_lt (nth j rp NaN) (Fin ravg) &&
  np_gt (np_sqrt (np_mul (Fin ravg) (nth j rp NaN))) (Fin rmin).
Proof.
  intros Hj. unfold Lpsd.case2.
  rewrite (zip_with_nth _ _ _ _ false false);
    rewrite ?length_map, ?rp_length; trivial.
  rewrite !(nth_map_lt _ _ _ NaN) by now rewrite rp_length.
  reflexivity.
Qed.

Lemma case3_nth (j : nat) :
  (j < Z.to_nat Jdes)%nat ->
  nth j case3 false = negb (nth j case1 false || nth j case2 false).
Proof.
  intros Hj. unfold Lpsd.case3.
  rewrite (nth_map_lt _ _ _ false).
  - f_equal. apply zip_with_nth.
    + now rewrite case1_length, case2_length.
    + now rewrite case1_length.
  - rewrite zip_with_length; now rewrite case1_length, ?case2_length.
Qed.

Lemma rpp_nth (j : nat) :
  (j < Z.to_nat Jdes)%nat ->
  nth j rpp NaN =
  if nth j case3 false then Fin rmin
  else if nth j case2 false then np_sqrt (np_mul (Fin ravg) (nth j rp NaN))
  else if nth j case1 false then nth j rp NaN
  else Fin 0.
Proof.
  intros Hj. unfold Lpsd.rpp.
  rewrite mask_fill_nth.
  2:{ unfold Lpsd.rpp_case2, Lpsd.rpp_case1, Lpsd.rpp_zeros.
      now rewrite case3_length, !mask_set_length, repeat_length. }
  2:{ unfold Lpsd.rpp_case2, Lpsd.rpp_case1, Lpsd.rpp_zeros.
      now rewrite !mask_set_length, repeat_length. }
  destruct (nth j case3 false); [reflexivity|].
  unfold Lpsd.rpp_case2.
  rewrite mask_set_nth.
  2:{ unfold Lpsd.rpp_case1, Lpsd.rpp_zeros.
      now rewrite case2_length, !mask_set_length, repeat_length. }
  2:{ unfold Lpsd.rpp_case1, Lpsd.rpp_zeros.
      now rewrite rp_length, !mask_set_length, repeat_length. }
  2:{ unfold Lpsd.rpp_case1, Lpsd.rpp_zeros.
      now rewrite !mask_set_length, repeat_length. }
  destruct (nth j case2 false); [reflexivity|].
  unfold Lpsd.rpp_case1.
  rewrite <- (map_id (compress case1 rp)).
  rewrite mask_set_nth.
  2:{ unfold Lpsd.rpp_zeros. now rewrite case1_length, repeat_length. }
  2:{ unfold Lpsd.rpp_zeros. now rewrite rp_length, repeat_length. }
  2:{ unfold Lpsd.rpp_zeros. now rewrite repeat_length. }
  destruct (nth j case1 false); [reflexivity|].
  unfold Lpsd.rpp_zeros. now rewrite nth_repeat_lt.
Qed.

(** *** The frequency grid *)

Lemma g_eq : Valid -> g = Fin (ln fmax - ln fmin) /\ 0 < ln fmax - ln fmin.
Proof.
  intros H. apply valid_inv in H as (Hlt & _ & _ & _ & _ & _ & _ & Hlo & _ & Hq).
  unfold Lpsd.g. simpl.
  rewrite !Rltb_true by lra. simpl. split.
  - reflexivity.
  - assert (ln fmin < ln fmax) by (apply ln_increasing; lra). lra.
Qed.

Lemma grid_point_eq (j : Z) :
  Valid -> (2 <= Jdes)%Z ->
  grid_point j =
  Fin (fmin * exp (IZR j * (ln fmax - ln fmin) / IZR (Jdes - 1))).
Proof.
  intros H HJ. unfold Lpsd.grid_point.
  destruct (g_eq H) as [-> _]. simpl.
  rewrite Reqb_false; [reflexivity|].
  apply not_0_IZR. lia.
Qed.

Lemma grid_point_one (j : Z) : Valid -> Jdes = 1%Z -> grid_point 0 = NaN.
Proof.
  intros H HJ. unfold Lpsd.grid_point.
  destruct (g_eq H) as [-> _]. subst Jdes. simpl.
  rewrite Reqb_true by reflexivity. unfold signed_inf.
  rewrite Reqb_true by lra. reflexivity.
Qed.


Lemma rp_nth (j : nat) :
  (j < Z.to_nat Jdes)%nat ->
  nth j rp NaN =
  np_mul (grid_point (Z.of_nat j))
    (np_sub (np_exp (np_div g (Fin (IZR (Jdes - 1))))) (Fin 1)).
Proof.
  intros Hj. unfold Lpsd.rp, Lpsd.jj.
  rewrite (nth_map_lt _ _ _ 0%Z) by now rewrite arange_int_length.
  now rewrite arange_int_nth.
Qed.

(** A desired resolution is a positive number, or [nan] when [Jdes] is 1
    and line 87 divides by [float(0)]. *)
Lemma rp_nth_cases (j : nat) :
  Valid -> (j < Z.to_nat Jdes)%nat ->
  (exists v, nth j rp NaN = Fin v /\ 0 < v) \/ nth j rp NaN = NaN.
Proof.
  intros H Hj. rewrite rp_nth by assumption.
  destruct (Z.eq_dec Jdes 1) as [HJ|HJ].
  - right. assert (j = 0%nat) as -> by lia. simpl.
    now rewrite (grid_point_one 0 H HJ).
  - left. pose proof (valid_inv H) as (Hlt & HJ0 & _ & _ & _ & _ & _ & Hlo & _ & Hq).
    rewrite grid_point_eq by (assumption || lia).
    destruct (g_eq H) as [-> Hg]. simpl.
    rewrite Reqb_false by (apply not_0_IZR; lia). simpl.
    eexists. split; [reflexivity|].
    assert (0 < IZR (Jdes - 1)) by (apply IZR_lt; lia).
    assert (1 < exp ((ln fmax - ln fmin) / IZR (Jdes - 1))).
    { rewrite <- exp_0. apply exp_increasing. now apply Rdiv_lt_0_compat. }
    apply Rmult_lt_0_compat; [|lra].
    apply Rmult_lt_0_compat; [lra|apply exp_pos].
Qed.

(** *** The adjusted resolution is a number, and at least [rmin] *)

Lemma rpp_nth_priority (j : nat) :
  (j < Z.to_nat Jdes)%nat ->
  let v := nth j rp NaN in
  let c1 := np_ge v (Fin ravg) in
  let c2 := negb c1 && np_gt (np_sqrt (np_mul (Fin ravg) v)) (Fin rmin) in
  nth j case1 false = c1 /\ nth j case2 false = c2 /\
  nth j case3 false = negb c1 && negb c2 /\
  nth j rpp NaN =
    if c1 then v else if c2 then np_sqrt (np_mul (Fin ravg) v) else Fin rmin.
Proof.
  intros Hj v c1 c2.
  assert (nth j case1 false = c1) as E1 by now apply case1_nth.
  assert (nth j case2 false = c2) as E2.
  { rewrite case2_nth by assumption. fold v. subst c2 c1.
    unfold np_ge. destruct v as [u| | |]; simpl; trivial.
    f_equal. unfold Rleb, Rltb.
    destruct (Rle_dec ravg u), (Rlt_dec u ravg); simpl; trivial; lra. }
  assert (nth j case3 false = negb c1 && negb c2) as E3.
  { rewrite case3_nth, E1, E2 by assumption. apply negb_orb. }
  repeat split; trivial.
  rewrite rpp_nth, E1, E2, E3 by assumption. fold v.
  destruct c1 eqn:Ec1.
  - subst c2. reflexivity.
  - destruct c2; reflexivity.
Qed.

Lemma rpp_nth_Fin (j : nat) :
  Valid -> (j < Z.to_nat Jdes)%nat ->
  exists v, nth j rpp NaN = Fin v /\ rmin <= v.
Proof.
  intros H Hj.
  destruct (rpp_nth_priority j Hj) as (_ & _ & _ & ->).
  pose proof (rmin_le_ravg H) as Hle. pose proof (rmin_pos H) as Hpos.
  destruct (rp_nth_cases j H Hj) as [(v & -> & Hv)| ->]; simpl.
  - unfold np_ge, np_gt. simpl.
    destruct (Rleb ravg v) eqn:E1; simpl.
    + exists v. split; [reflexivity|].
      apply Rleb_spec in E1. lra.
    + rewrite Rltb_false by nra.
      destruct (Rltb rmin (sqrt (ravg * v))) eqn:E2.
      * eexists. split; [reflexivity|]. apply Rltb_spec in E2. lra.
      * exists rmin. split; [reflexivity|lra].
  - exists rmin. split; [reflexivity|lra].
Qed.

(** *** The resolution rule *)

(** C3.  At every frequency index of a validated input exactly one of the
    three cases applies, taken in this order: [rp[j] >= ravg] keeps
    [rp[j]]; else [sqrt(ravg * rp[j]) > rmin] takes that geometric mean;
    otherwise [rmin]; and in every case [rpp[j] >= rmin]. *)
Theorem resolution_cases (j : nat) :
  Valid -> (j < Z.to_nat Jdes)%nat ->
  let v := nth j rp NaN in
  let c1 := np_ge v (Fin ravg) in
  let c2 := negb c1 && np_gt (np_sqrt (np_mul (Fin ravg) v)) (Fin rmin) in
  let c3 := negb c1 && negb c2 in
  ravg = fs / IZR N * (1 + (1 - xi) * (IZR Kdes - 1)) /\
  rmin = fs / IZR N * (1 + (1 - xi) * (IZR Kmin - 1)) /\
  nth j case1 false = c1 /\ nth j case2 false = c2 /\
  nth j case3 false = c3 /\
  ((c1 = true /\ c2 = false /\ c3 = false) \/
   (c1 = false /\ c2 = true /\ c3 = false) \/
   (c1 = false /\ c2 = false /\ c3 = true)) /\
  nth j rpp NaN =
    (if c1 then v else if c2 then np_sqrt (np_mul (Fin ravg) v) else Fin rmin) /\
  np_ge (nth j rpp NaN) (Fin rmin) = true.
Proof.
  intros H Hj v c1 c2 c3.
  destruct (rpp_nth_priority j Hj) as (E1 & E2 & E3 & E4).
  fold v in E1, E2, E3, E4. fold c1 in E1, E2, E3, E4. fold c2 in E2, E3, E4.
  split; [unfold Lpsd.ravg; now rewrite minus_IZR|].
  split; [unfold Lpsd.rmin; now rewrite minus_IZR|].
  repeat (split; [assumption|]).
  split; [|split; [assumption|]].
  - subst c3 c2.
    generalize (np_gt (np_sqrt (np_mul (Fin ravg) v)) (Fin rmin)).
    intros b. clear. destruct c1, b; simpl; auto.
  - destruct (rpp_nth_Fin j H Hj) as (u & -> & Hu).
    unfold np_ge. simpl. now apply Rleb_true.
Qed.


(** *** The segment lengths *)

(** A segment length is the rounding of [fs / rpp[j]], a number in
    [(0, N]]. *)
Lemma L_nth_bounds (j : nat) :
  Valid -> (j < Z.to_nat Jdes)%nat ->
  exists v z,
    nth j rpp NaN = Fin v /\ 0 < fs / v <= IZR N /\
    nth j L NaN = Fin (IZR z) /\ z = round_half_even (fs / v) /\
    (0 <= z <= N)%Z.
Proof.
  intros H Hj.
  destruct (rpp_nth_Fin j H Hj) as (v & Ev & Hv).
  pose proof (rmin_pos H) as Hpos. pose proof (rmin_lower H) as Hlow.
  pose proof (valid_inv H) as (_ & _ & _ & _ & Hfs & _ & HN & _ & _ & Hq).
  exists v, (round_half_even (fs / v)).
  assert (0 < fs / v) as Hpos' by (apply Rdiv_lt_0_compat; lra).
  assert (fs / v <= IZR N) as Hup.
  { apply Rmult_le_reg_r with v; [lra|].
    unfold Rdiv at 1. rewrite Rmult_assoc, Rinv_l, Rmult_1_r by lra.
    assert (fs = fs / IZR N * IZR N) as E by (field; lra).
    rewrite E at 1. rewrite Rmult_comm.
    apply Rmult_le_compat_l; lra. }
  repeat split; trivial.
  - unfold Lpsd.L.
    rewrite (nth_map_lt _ _ _ NaN) by now rewrite rpp_length.
    rewrite Ev. simpl. rewrite Reqb_false by lra. reflexivity.
  - apply round_half_even_nonneg. lra.
  - now apply round_half_even_le.
Qed.


(** *** The frequency grid *)


(** *** The range check on [fmin] *)

(** C6, as the code has it.  Once the checks on the arguments have passed
    and the record is not empty, an [fmin] below [fs / N] ends the call in
    the [IndexError] of [str.format], raised while the message is built,
    and not in the [ValueError] that the message was for. *)
Theorem lowest_frequency_error :
  Lpsd.check_arguments windowfcn fmin fmax Jdes Kdes Kmin fs xi = Ok tt ->
  (N <> 0)%Z -> fmin < fs / IZR N ->
  lpsd = Raise IndexError /\ raised_by_check IndexError = false.
Proof.
  intros Ha HN Hlow. split; [|reflexivity].
  unfold Lpsd.lpsd, Lpsd.lpsd_locals. rewrite Ha.
  unfold Lpsd.check_range, py_div.
  apply Z.eqb_neq in HN. rewrite HN.
  cbn [bind]. rewrite Rleb_false by assumption.
  reflexivity.
Qed.

(** *** What [lpsd] returns *)


(** *** One pass of the loop *)

Local Abbreviation D := (Lpsd.D xi).
Local Abbreviation K := (Lpsd.K x xi).
Local Abbreviation segments := (Lpsd.segments x xi).
Local Abbreviation window := (Lpsd.window windowfcn).
Local Abbreviation weighted := (Lpsd.weighted x windowfcn xi).
Local Abbreviation bin := (Lpsd.bin x windowfcn xi).

(** The exceptions of a pass come out of numpy, none from a check. *)
Lemma bin_raise_kind (Lj mj : npfloat) (e : exn) :
  bin Lj mj = Raise e -> raised_by_check e = false.
Proof.
  unfold Lpsd.bin, Lpsd.weighted, Lpsd.segments. intros H.
  apply bind_raise in H as [H|(? & _ & H)]; [|discriminate].
  apply bind_raise in H as [H|(data & _ & H)].
  - apply bind_raise in H as [H|(ns & _ & H)].
    { apply np_arange_raise in H. now subst. }
    apply bind_raise in H as [H|(ks & _ & H)].
    { apply np_arange_raise in H. now subst. }
    apply mapM_raise_inv in H as (row & _ & H).
    apply mapM_raise_inv in H as (i & _ & H).
    apply getitem_raise in H. now subst.
  - apply bind_raise in H as [H|(ws & _ & H)].
    { unfold Lpsd.weights in H.
      apply bind_raise in H as [H|(ns & _ & H)].
      - apply np_arange_raise in H. now subst.
      - apply broadcast_raise in H. now subst. }
    apply mapM_raise_inv in H as (seg & _ & H).
    apply broadcast_raise in H. now subst.
Qed.

(** A hop size of zero makes the number of segments [inf] or [nan], and
    [np.arange] refuses it. *)
Lemma K_degenerate (z : Z) :
  round_half_even ((1 - xi) * IZR z) = 0%Z ->
  np_arange (K (Fin (IZR z))) = Raise ArangeError.
Proof.
  intros Hd. unfold Lpsd.K, Lpsd.D. simpl. rewrite Hd.
  rewrite Reqb_true by reflexivity. unfold signed_inf.
  destruct (Reqb _ 0); [reflexivity|]. destruct (Rltb 0 _); reflexivity.
Qed.

Lemma K_Fin (z : Z) :
  round_half_even ((1 - xi) * IZR z) <> 0%Z ->
  K (Fin (IZR z)) =
  Fin (IZR (Zfloor ((IZR N - IZR z)
                    / IZR (round_half_even ((1 - xi) * IZR z)) + 1))).
Proof.
  intros Hd. unfold Lpsd.K, Lpsd.D. simpl.
  rewrite Reqb_false by now apply not_0_IZR. reflexivity.
Qed.

Lemma bin_degenerate (z : Z) (mj : npfloat) :
  round_half_even ((1 - xi) * IZR z) = 0%Z ->
  bin (Fin (IZR z)) mj = Raise ArangeError.
Proof.
  intros Hd. unfold Lpsd.bin, Lpsd.weighted, Lpsd.segments.
  rewrite np_arange_IZR. cbn [bind]. now rewrite K_degenerate.
Qed.



(** *** The loop *)


Lemma loop_In (lm : npfloat * npfloat) :
  In lm (combine L m) ->
  exists j, (j < Z.to_nat Jdes)%nat /\ lm = (nth j L NaN, nth j m NaN).
Proof.
  intros Hin. apply (In_nth _ _ (NaN, NaN)) in Hin as (j & Hj & E).
  rewrite length_combine, L_length, m_length in Hj.
  rewrite combine_nth in E by now rewrite L_length, m_length.
  exists j. split; [lia|now symmetry].
Qed.


(** *** Degenerate segmentation *)


(** *** The calibration factors *)


(** *** Evaluating the arrays at an index *)






Lemma rpp_nth_case2 (j : nat) (v : R) :
  (j < Z.to_nat Jdes)%nat -> nth j rp NaN = Fin v ->
  v < ravg -> 0 <= ravg * v -> rmin < sqrt (ravg * v) ->
  nth j rpp NaN = Fin (sqrt (ravg * v)).
Proof.
  intros Hj Ev Hv Hnn Hs. destruct (rpp_nth_priority j Hj) as (_ & _ & _ & ->).
  rewrite Ev. unfold np_ge, np_gt. simpl.
  rewrite Rleb_false by assumption. rewrite Rltb_false by assumption.
  simpl. now rewrite Rltb_true.
Qed.

Lemma L_nth_eval (j : nat) (v : R) (z : Z) :
  (j < Z.to_nat Jdes)%nat -> nth j rpp NaN = Fin v -> v <> 0 ->
  round_half_even (fs / v) = z -> nth j L NaN = Fin (IZR z).
Proof.
  intros Hj Ev Hv Hz. unfold Lpsd.L.
  rewrite (nth_map_lt _ _ _ NaN) by now rewrite rpp_length.
  rewrite Ev. unfold np_div. rewrite Reqb_false by assumption.
  cbn [np_round]. now rewrite Hz.
Qed.


End Properties.

(** ** Runs on concrete inputs *)

Ltac eval_cmp :=
  repeat first
    [ rewrite Rltb_true by lra | rewrite Rltb_false by lra
    | rewrite Rleb_true by lra | rewrite Rleb_false by lra
    | rewrite Reqb_true by lra | rewrite Reqb_false by lra ].


(** *** A record of four samples cut into two segments of two

    [fs = 4], [fmin = 1], [fmax = 2], two frequencies, one average, no
    overlap: the second frequency has [L = 2], [D = 2] and [K = 2]. *)

Lemma valid_record4 (xi : R) :
  0 <= xi < 1 -> valid record4 rectangular 1 2 2 1 1 4 xi.
Proof.
  intros Hxi. split.
  - unfold Lpsd.check_arguments. eval_cmp. reflexivity.
  - unfold Lpsd.check_range, py_div, Lpsd.N. simpl. eval_cmp. reflexivity.
Qed.










Lemma Fin_eq (a b : R) : a = b -> Fin a = Fin b.
Proof. now intros ->. Qed.

Lemma CFin_eq (a b c d : R) : a = c -> b = d -> CFin (mkC a b) = CFin (mkC c d).
Proof. now intros -> ->. Qed.













Lemma resolution_cases_witness :
  valid record4 rectangular 1 2 2 1 1 4 0 /\
  nth 0 (Lpsd.case1 record4 1 2 2 1 4 0) false =
    np_ge (nth 0 (Lpsd.rp 1 2 2) NaN) (Fin (Lpsd.ravg record4 1 4 0)) /\
  np_ge (nth 0 (Lpsd.rpp record4 1 2 2 1 1 4 0) NaN)
        (Fin (Lpsd.rmin record4 1 4 0)) = true.
Proof.
  assert (valid record4 rectangular 1 2 2 1 1 4 0) as V
    by (apply valid_record4; lra).
  assert (0 < Z.to_nat 2)%nat as Hj by (simpl; lia).
  pose proof (resolution_cases record4 rectangular 1 2 2 1 1 4 0 0 V Hj) as H.
  cbv zeta in H. destruct H as (_ & _ & H1 & _ & _ & _ & _ & H2).
  split; [exact V|]. split; [exact H1|exact H2].
Defined.





(** *** The same record with four desired averages: case 2 applies *)

Lemma valid_record4_four : valid record4 rectangular 1 2 2 4 1 4 0.
Proof.
  split.
  - unfold Lpsd.check_arguments. eval_cmp. reflexivity.
  - unfold Lpsd.check_range, py_div, Lpsd.N. simpl. eval_cmp. reflexivity.
Qed.



(** *** A record below the lowest frequency *)

Lemma lowest_frequency_error_witness :
  Lpsd.check_arguments rectangular (1 / 2) 2 2 1 1 4 0 = Ok tt /\
  (Lpsd.N record4 <> 0)%Z /\ 1 / 2 < 4 / IZR (Lpsd.N record4) /\
  Lpsd.lpsd record4 rectangular (1 / 2) 2 2 1 1 4 0 = Raise IndexError.
Proof.
  assert (Lpsd.check_arguments rectangular (1 / 2) 2 2 1 1 4 0 = Ok tt) as Ha.
  { unfold Lpsd.check_arguments. eval_cmp. reflexivity. }
  assert (Lpsd.N record4 <> 0)%Z as HN by (unfold Lpsd.N; simpl; lia).
  assert (1 / 2 < 4 / IZR (Lpsd.N record4)) as Hlow
    by (unfold Lpsd.N; simpl; lra).
  split; [exact Ha|]. split; [exact HN|]. split; [exact Hlow|].
  exact (proj1 (lowest_frequency_error record4 rectangular (1 / 2) 2 2 1 1 4 0
                  Ha HN Hlow)).
Defined.

(** *** An overlap of three quarters: the hop of the second frequency is 0 *)





(** *** A record of ten samples: the second segment length is 0 *)




(** * Further properties of [lpsd] *)

Section Behaviour.

Variables (x : list R) (windowfcn : pyobject).
Variables (fmin fmax : R) (Jdes Kdes Kmin : Z) (fs xi : R).

Local Abbreviation Valid := (valid x windowfcn fmin fmax Jdes Kdes Kmin fs xi).
Local Abbreviation N := (Lpsd.N x).
Local Abbreviation check_arguments :=
  (Lpsd.check_arguments windowfcn fmin fmax Jdes Kdes Kmin fs xi).
Local Abbreviation check_range := (Lpsd.check_range x fmin fmax fs).
Local Abbreviation f := (Lpsd.f fmin fmax Jdes).
Local Abbreviation rp := (Lpsd.rp fmin fmax Jdes).
Local Abbreviation ravg := (Lpsd.ravg x Kdes fs xi).
Local Abbreviation rmin := (Lpsd.rmin x Kmin fs xi).
Local Abbreviation case1 := (Lpsd.case1 x fmin fmax Jdes Kdes fs xi).
Local Abbreviation case2 := (Lpsd.case2 x fmin fmax Jdes Kdes Kmin fs xi).
Local Abbreviation case3 := (Lpsd.case3 x fmin fmax Jdes Kdes Kmin fs xi).
Local Abbreviation rpp := (Lpsd.rpp x fmin fmax Jdes Kdes Kmin fs xi).
Local Abbreviation L := (Lpsd.L x fmin fmax Jdes Kdes Kmin fs xi).
Local Abbreviation m := (Lpsd.m x fmin fmax Jdes Kdes Kmin fs xi).
Local Abbreviation D := (Lpsd.D xi).
Local Abbreviation K := (Lpsd.K x xi).
Local Abbreviation segments := (Lpsd.segments x xi).
Local Abbreviation weights := (Lpsd.weights windowfcn).
Local Abbreviation weighted := (Lpsd.weighted x windowfcn xi).
Local Abbreviation bin := (Lpsd.bin x windowfcn xi).
Local Abbreviation lpsd_locals :=
  (Lpsd.lpsd_locals x windowfcn fmin fmax Jdes Kdes Kmin fs xi).
Local Abbreviation lpsd := (Lpsd.lpsd x windowfcn fmin fmax Jdes Kdes Kmin fs xi).

(** ** What the validation accepts *)

Lemma N_zero_iff : (N =? 0)%Z = true <-> x = [].
Proof.
  unfold Lpsd.N. rewrite Z.eqb_eq. destruct x; simpl; split; intros; try lia;
    congruence.
Qed.

(** X1.  The checks of lines 60 to 83 pass exactly for a callable window,
    [fmin < fmax], positive [Jdes], [Kdes], [Kmin] and [fs],
    [Kmin <= Kdes], [0 <= xi < 1], a record that is not empty and
    [fs / N <= fmin], [fmax <= fs / 2]; both bounds of the band are
    accepted. *)
Theorem valid_iff :
  Valid <->
  callable windowfcn = true /\ fmin < fmax /\
  (0 < Jdes)%Z /\ (0 < Kdes)%Z /\ (0 < Kmin)%Z /\ (Kmin <= Kdes)%Z /\
  0 < fs /\ 0 <= xi < 1 /\
  x <> [] /\ fs / IZR N <= fmin /\ fmax <= fs / 2.
Proof.
  split.
  - intros [Ha Hr].
    apply check_arguments_inv in Ha as (H0 & H1 & H2 & H3 & H4 & H5 & H6 & H7).
    apply check_range_inv in Hr as (HN & H8 & H9).
    repeat (split; [assumption|]). split; [|split; assumption].
    intros E. apply N_zero_iff in E. apply Z.eqb_eq in E. lia.
  - intros (H0 & H1 & H2 & H3 & H4 & H5 & H6 & H7 & H8 & H9 & H10). split.
    + unfold Lpsd.check_arguments. rewrite H0.
      apply Z.ltb_lt in H2, H3, H4. apply Z.leb_le in H5.
      rewrite H2, H3, H4, H5. rewrite !Rltb_true by lra.
      rewrite Rleb_true by lra. reflexivity.
    + unfold Lpsd.check_range, py_div.
      destruct (N =? 0)%Z eqn:EN; [apply N_zero_iff in EN; contradiction|].
      cbn [bind]. rewrite !Rleb_true by assumption. reflexivity.
Qed.

(** ** The exceptions of the checks *)

Lemma check_arguments_raise (e : exn) :
  check_arguments = Raise e ->
  (callable windowfcn = false /\
   e = TypeError [Text "windowfcn must be callable"]) \/
  (callable windowfcn = true /\ exists s, e = ValueError [Text s] []).
Proof.
  unfold Lpsd.check_arguments, check.
  destruct (callable windowfcn); cbn [bind];
    [|intros E; left; split; congruence].
  intros E. right. split; [reflexivity|].
  repeat match type of E with
         | context [if ?c then Ok tt else _] =>
             destruct c; cbn [bind] in E;
             [|injection E as <-; eexists; reflexivity]
         end.
  discriminate.
Qed.

Lemma check_range_cases :
  (x = [] /\ check_range = Raise ZeroDivisionError) \/
  (x <> [] /\ fmin < fs / IZR N /\ check_range = Raise IndexError) \/
  (x <> [] /\ fs / IZR N <= fmin /\ fs / 2 < fmax /\
   check_range = Raise (ValueError (nyquist_message fs fmax) [])) \/
  (x <> [] /\ fs / IZR N <= fmin /\ fmax <= fs / 2 /\ check_range = Ok tt).
Proof.
  unfold Lpsd.check_range, py_div.
  destruct (N =? 0)%Z eqn:EN.
  { apply N_zero_iff in EN. left. split; [assumption|reflexivity]. }
  assert (x <> []) as Hne.
  { intros E. apply N_zero_iff in E. congruence. }
  right. cbn [bind].
  destruct (Rle_dec (fs / IZR N) fmin) as [Hlo|Hlo].
  - right. rewrite Rleb_true by assumption.
    destruct (Rle_dec fmax (fs / 2)) as [Hhi|Hhi].
    + right. rewrite Rleb_true by assumption. auto.
    + left. rewrite Rleb_false by lra. repeat split; trivial. lra.
  - left. rewrite Rleb_false by lra. repeat split; trivial. lra.
Qed.

(** ** The segments of one pass *)

(** The count of line 127 for a hop size of at least 1 *)
Lemma K_floor_bounds (z d : Z) :
  (0 <= z <= N)%Z -> (1 <= d)%Z ->
  let k := Zfloor ((IZR N - IZR z) / IZR d + 1) in
  (1 <= k)%Z /\ ((k - 1) * d + z <= N)%Z /\ (N < k * d + z)%Z.
Proof.
  intros Hz Hd k.
  pose proof (Zfloor_bound ((IZR N - IZR z) / IZR d + 1)) as [Hlo Hhi].
  fold k in Hlo, Hhi.
  assert (0 < IZR d) as Hd' by (apply IZR_lt; lia).
  assert ((IZR N - IZR z) / IZR d * IZR d = IZR N - IZR z) as E
    by (field; lra).
  assert (IZR z <= IZR N) as HzN by (apply IZR_le; lia).
  assert (0 <= (IZR N - IZR z) / IZR d) as Hq.
  { apply Rmult_le_pos; [lra|]. apply Rlt_le, Rinv_0_lt_compat, Hd'. }
  split; [|split].
  - apply Zfloor_lub. lra.
  - apply le_IZR. rewrite plus_IZR, mult_IZR, minus_IZR.
    assert ((IZR k - 1) * IZR d <= (IZR N - IZR z) / IZR d * IZR d)
      by (apply Rmult_le_compat_r; lra).
    lra.
  - apply lt_IZR. rewrite plus_IZR, mult_IZR.
    assert ((IZR N - IZR z) / IZR d * IZR d < IZR k * IZR d)
      by (apply Rmult_lt_compat_r; lra).
    lra.
Qed.

(** X2.  Where the hop size is at least 1, the number of segments is the
    largest that fits the record: at least 1, the last segment ends inside
    the record and one more would not. *)
Theorem segments_fit_record (z : Z) :
  (0 <= z <= N)%Z -> (1 <= round_half_even ((1 - xi) * IZR z))%Z ->
  exists d k,
    D (Fin (IZR z)) = Fin (IZR d) /\ K (Fin (IZR z)) = Fin (IZR k) /\
    (1 <= d)%Z /\ (1 <= k)%Z /\
    ((k - 1) * d + z <= N)%Z /\ (N < k * d + z)%Z.
Proof.
  intros Hz Hd.
  exists (round_half_even ((1 - xi) * IZR z)).
  exists (Zfloor ((IZR N - IZR z)
                  / IZR (round_half_even ((1 - xi) * IZR z)) + 1)).
  split; [reflexivity|]. split; [apply K_Fin; lia|]. split; [assumption|].
  now apply K_floor_bounds.
Qed.

(** With a hop size of at least 1 every index of the selector matrix is
    inside the record: the segments are cut, each with one finite entry
    per sample. *)
Lemma segments_returns (z : Z) :
  (1 <= z <= N)%Z -> (1 <= round_half_even ((1 - xi) * IZR z))%Z ->
  exists data k,
    segments (Fin (IZR z)) = Ok data /\
    K (Fin (IZR z)) = Fin (IZR k) /\ (1 <= k)%Z /\
    List.length data = Z.to_nat k /\
    forall seg, In seg data ->
      List.length seg = Z.to_nat z /\ forall v, In v seg -> exists u, v = Fin u.
Proof.
  intros Hz Hd.
  set (d := round_half_even ((1 - xi) * IZR z)) in *.
  set (k := Zfloor ((IZR N - IZR z) / IZR d + 1)).
  assert (K (Fin (IZR z)) = Fin (IZR k)) as EK by (apply K_Fin; fold d; lia).
  destruct (K_floor_bounds z d) as (Hk1 & Hfit & _); [lia|lia|].
  fold k in Hk1, Hfit.
  unfold Lpsd.segments. rewrite EK, !np_arange_IZR. cbn [bind].
  destruct (mapM_total (mapM (getitem x))
              (Lpsd.selector xi (Fin (IZR z)) (arange_int z) (arange_int k)))
    as [data Hdata].
  { intros row Hrow. unfold Lpsd.selector in Hrow.
    apply in_map_iff in Hrow as (k' & <- & Hk'). apply arange_int_In in Hk'.
    apply mapM_total. intros i Hi.
    apply in_map_iff in Hi as (n & <- & Hn). apply arange_int_In in Hn.
    unfold Lpsd.D. cbn [np_add np_mul np_round]. fold d.
    rewrite <- mult_IZR, <- plus_IZR.
    rewrite getitem_in_range; [eauto|].
    fold N. nia. }
  exists data, k. split; [assumption|]. split; [reflexivity|].
  split; [assumption|]. split.
  - apply mapM_ok_length in Hdata. rewrite Hdata.
    unfold Lpsd.selector. now rewrite length_map, arange_int_length.
  - intros seg Hseg.
    destruct (mapM_ok_In _ _ _ _ Hdata Hseg) as (row & Hrow & Hrow').
    split.
    + apply mapM_ok_length in Hrow'. rewrite Hrow'.
      unfold Lpsd.selector in Hrow. apply in_map_iff in Hrow as (k' & <- & _).
      now rewrite length_map, arange_int_length.
    + intros v Hv.
      destruct (mapM_ok_In _ _ _ _ Hrow' Hv) as (i & _ & Hi).
      unfold getitem in Hi. destruct i; try discriminate.
      repeat match type of Hi with
             | context [if ?c then _ else _] => destruct c
             end; inversion Hi; eauto.
Qed.

(** ** The exceptions of a call *)

(** On a validated input a pass raises only out of numpy: [np.arange] on
    the count that a hop size of 0 leaves, or a window whose shape does
    not fit the segment. *)
Lemma bin_raise_valid (j : nat) (e : exn) :
  Valid -> (j < Z.to_nat Jdes)%nat ->
  bin (nth j L NaN) (nth j m NaN) = Raise e ->
  (e = ArangeError /\ D (nth j L NaN) = Fin 0) \/ e = BroadcastError.
Proof.
  intros H Hj He.
  destruct (L_nth_bounds _ _ _ _ _ _ _ _ _ j H Hj)
    as (v & z & _ & _ & EL & _ & Hz).
  pose proof (valid_inv _ _ _ _ _ _ _ _ _ H) as (_ & _ & _ & _ & _ & Hxi & _).
  rewrite EL in *.
  set (d := round_half_even ((1 - xi) * IZR z)).
  assert (0 <= d)%Z as Hd0.
  { apply round_half_even_nonneg. apply Rmult_le_pos; [lra|].
    apply IZR_le. lia. }
  destruct (Z.eq_dec d 0) as [Hd|Hd].
  - left. rewrite bin_degenerate in He by assumption.
    split; [congruence|]. unfold Lpsd.D. cbn [np_mul np_round].
    fold d. now rewrite Hd.
  - right.
    assert (z <> 0)%Z as Hz0.
    { intros ->. apply Hd. unfold d.
      rewrite Rmult_0_r. apply (round_half_even_IZR 0). }
    destruct (segments_returns z) as (data & k & Hdata & _); [lia|lia|].
    unfold Lpsd.bin, Lpsd.weighted in He.
    rewrite Hdata in He. cbn [bind] in He.
    apply bind_raise in He as [He|(? & _ & He)]; [|discriminate].
    apply bind_raise in He as [He|(ws & _ & He)].
    + unfold Lpsd.weights in He. rewrite np_arange_IZR in He.
      cbn [bind] in He. now apply broadcast_raise in He.
    + apply mapM_raise_inv in He as (seg & _ & He).
      now apply broadcast_raise in He.
Qed.

Lemma lpsd_outcome :
  (exists e, check_arguments = Raise e /\ lpsd = Raise e) \/
  (check_arguments = Ok tt /\ exists e, check_range = Raise e /\ lpsd = Raise e) \/
  (Valid /\ exists j e, (j < Z.to_nat Jdes)%nat /\
     bin (nth j L NaN) (nth j m NaN) = Raise e /\ lpsd = Raise e) \/
  (Valid /\ exists P, lpsd = Ok [Array P; Array f] /\
     List.length P = Z.to_nat Jdes).
Proof.
  unfold Lpsd.lpsd, Lpsd.lpsd_locals.
  destruct check_arguments as [[]|e] eqn:Ha; [right|left; eauto].
  destruct check_range as [[]|e] eqn:Hr; [right|left; eauto].
  assert (Valid) as V by (split; assumption).
  cbn [bind].
  destruct (mapM (fun lm => bin (fst lm) (snd lm)) (combine L m))
    as [bins|e] eqn:Hb; cbn [bind].
  - right. split; [assumption|]. eexists. split; [reflexivity|].
    cbn [Lpsd.Pxx]. rewrite length_map. apply mapM_ok_length in Hb.
    rewrite Hb, length_combine, L_length, m_length. lia.
  - left. split; [assumption|].
    apply mapM_raise_inv in Hb as (lm & Hin & He).
    apply loop_In in Hin as (j & Hj & ->). simpl in He.
    exists j, e. auto.
Qed.


(** X4.  [lpsd] raises [ZeroDivisionError] exactly when the checks on the
    arguments pass and the record is empty: line 80 divides by [N]. *)
Theorem zero_division_iff :
  lpsd = Raise ZeroDivisionError <-> check_arguments = Ok tt /\ x = [].
Proof.
  split.
  - intros He.
    destruct lpsd_outcome
      as [(e & Ha & E)|[(Ha' & e & Hr & E)|[(V & j & e & Hj & Hb & E)|(_ & P & E & _)]]];
      rewrite E in He; try discriminate; injection He as ->.
    + apply check_arguments_raise in Ha as [[_ E']|[_ [s E']]]; discriminate.
    + split; [assumption|].
      destruct check_range_cases
        as [[Hx _]|[(_ & _ & E')|[(_ & _ & _ & E')|(_ & _ & _ & E')]]];
        [assumption| | |]; rewrite E' in Hr; discriminate.
    + apply (bin_raise_valid j _ V Hj) in Hb as [[Hb _]|Hb]; discriminate.
  - intros [Ha Hx]. unfold Lpsd.lpsd, Lpsd.lpsd_locals. rewrite Ha. cbn [bind].
    destruct check_range_cases
      as [[_ E']|[(Hne & _)|[(Hne & _)|(Hne & _)]]]; try contradiction.
    now rewrite E'.
Qed.


(** X6.  [lpsd] raises the [ValueError] of line 83, whose message holds
    the Nyquist rate [fs / 2] and [fmax], exactly when the checks on the
    arguments pass, the record is not empty, [fs / N <= fmin] and
    [fmax > fs / 2]. *)
Theorem nyquist_error_iff :
  lpsd = Raise (ValueError (nyquist_message fs fmax) []) <->
  check_arguments = Ok tt /\ x <> [] /\ fs / IZR N <= fmin /\ fs / 2 < fmax.
Proof.
  split.
  - intros He.
    destruct lpsd_outcome
      as [(e & Ha & E)|[(Ha' & e & Hr & E)|[(V & j & e & Hj & Hb & E)|(_ & P & E & _)]]];
      rewrite E in He; try discriminate; injection He as ->.
    + apply check_arguments_raise in Ha as [[_ E']|[_ [s E']]]; discriminate.
    + split; [assumption|].
      destruct check_range_cases
        as [[_ E']|[(_ & _ & E')|[(Hne & Hlo & Hhi & _)|(_ & _ & _ & E')]]];
        [| |auto|]; rewrite E' in Hr; discriminate.
    + apply bin_raise_kind in Hb. discriminate.
  - intros (Ha & Hne & Hlo & Hhi).
    unfold Lpsd.lpsd, Lpsd.lpsd_locals. rewrite Ha. cbn [bind].
    destruct check_range_cases
      as [[Hx _]|[(_ & Hlow & _)|[(_ & _ & _ & E')|(_ & _ & Hle & _)]]];
      [contradiction|lra| |lra].
    now rewrite E'.
Qed.


(** ** The frequency grid and the resolutions *)

Lemma round_half_even_mono (a b : R) :
  a <= b -> (round_half_even a <= round_half_even b)%Z.
Proof.
  intros Hab.
  destruct (Z_le_gt_dec (round_half_even a) (round_half_even b)) as [|Hgt];
    [assumption|exfalso].
  pose proof (round_half_even_bounds a) as [_ Ha].
  pose proof (round_half_even_bounds b) as [Hb _].
  assert (IZR (round_half_even b) + 1 <= IZR (round_half_even a)) as Hstep.
  { rewrite <- plus_IZR. apply IZR_le. lia. }
  assert (a = b) as E by lra.
  rewrite E in Hgt. lia.
Qed.


Lemma rp_nth_Fin (j : nat) :
  Valid -> (2 <= Jdes)%Z -> (j < Z.to_nat Jdes)%nat ->
  nth j rp NaN =
  Fin (fmin * exp (INR j * ((ln fmax - ln fmin) / IZR (Jdes - 1)))
       * (exp ((ln fmax - ln fmin) / IZR (Jdes - 1)) - 1)).
Proof.
  intros V HJ Hj. rewrite rp_nth by assumption.
  rewrite (grid_point_eq _ _ _ _ _ _ _ _ _ _ V HJ).
  destruct (g_eq _ _ _ _ _ _ _ _ _ V) as [-> _].
  cbn [np_div]. rewrite Reqb_false by (apply not_0_IZR; lia).
  cbn [np_exp np_sub np_add np_neg np_mul].
  assert (IZR (Z.of_nat j) * (ln fmax - ln fmin) / IZR (Jdes - 1) =
          INR j * ((ln fmax - ln fmin) / IZR (Jdes - 1))) as ->
    by (rewrite <- INR_IZR_INZ; unfold Rdiv; ring).
  reflexivity.
Qed.

Lemma grid_step_pos :
  Valid -> (2 <= Jdes)%Z -> 0 < (ln fmax - ln fmin) / IZR (Jdes - 1).
Proof.
  intros V HJ. destruct (g_eq _ _ _ _ _ _ _ _ _ V) as [_ Hg].
  apply Rdiv_lt_0_compat; [assumption|]. apply IZR_lt. lia.
Qed.




(** Where case 2 applies the desired resolution is a positive number below
    [ravg] whose geometric mean with [ravg] is above [rmin]. *)
Lemma rpp_nth_value (j : nat) (v : R) :
  Valid -> (j < Z.to_nat Jdes)%nat -> nth j rp NaN = Fin v ->
  0 < v /\
  nth j rpp NaN =
    Fin (if Rle_dec ravg v then v
         else if Rlt_dec rmin (sqrt (ravg * v)) then sqrt (ravg * v)
              else rmin).
Proof.
  intros V Hj Ev.
  assert (0 < v) as Hv.
  { destruct (rp_nth_cases _ _ _ _ _ _ _ _ _ j V Hj) as [(u & Eu & Hu)|E];
      rewrite Ev in *; [injection Eu as ->; assumption|discriminate]. }
  split; [assumption|].
  pose proof (rmin_pos _ _ _ _ _ _ _ _ _ V) as Hpos.
  pose proof (rmin_le_ravg _ _ _ _ _ _ _ _ _ V) as Hle.
  destruct (rpp_nth_priority x fmin fmax Jdes Kdes Kmin fs xi j Hj)
    as (_ & _ & _ & ->).
  rewrite Ev. unfold np_ge, np_gt. cbn [np_le np_mul np_sqrt].
  destruct (Rle_dec ravg v) as [H1|H1].
  - now rewrite Rleb_true.
  - rewrite Rleb_false by lra. rewrite Rltb_false by nra. cbn [negb andb np_lt].
    destruct (Rlt_dec rmin (sqrt (ravg * v))) as [H2|H2].
    + now rewrite Rltb_true.
    + rewrite Rltb_false by lra. reflexivity.
Qed.

(** The rule of lines 96 to 107 as a function of the desired resolution *)
Lemma adjusted_between (v : R) :
  Valid -> 0 < v ->
  let w := if Rle_dec ravg v then v
           else if Rlt_dec rmin (sqrt (ravg * v)) then sqrt (ravg * v)
                else rmin in
  v <= w /\ w <= Rmax v ravg /\ rmin <= w.
Proof.
  intros V Hv.
  pose proof (rmin_pos _ _ _ _ _ _ _ _ _ V) as Hpos.
  pose proof (rmin_le_ravg _ _ _ _ _ _ _ _ _ V) as Hle.
  cbv zeta. destruct (Rle_dec ravg v) as [H1|H1].
  - split; [lra|]. split; [apply Rmax_l|lra].
  - assert (v < sqrt (ravg * v)) as Hlo.
    { rewrite <- (sqrt_square v) at 1 by lra. apply sqrt_lt_1_alt. nra. }
    assert (sqrt (ravg * v) < ravg) as Hhi.
    { rewrite <- (sqrt_square ravg) at 2 by lra. apply sqrt_lt_1_alt. nra. }
    pose proof (Rmax_r v ravg) as Hmax.
    destruct (Rlt_dec rmin (sqrt (ravg * v))) as [H2|H2]; repeat split; lra.
Qed.

Lemma adjusted_mono (u v : R) :
  Valid -> 0 < u -> u <= v ->
  (if Rle_dec ravg u then u
   else if Rlt_dec rmin (sqrt (ravg * u)) then sqrt (ravg * u) else rmin)
  <=
  (if Rle_dec ravg v then v
   else if Rlt_dec rmin (sqrt (ravg * v)) then sqrt (ravg * v) else rmin).
Proof.
  intros V Hu Huv.
  pose proof (adjusted_between u V Hu) as (_ & Hu2 & _).
  pose proof (adjusted_between v V ltac:(lra)) as (Hv1 & _ & Hv3).
  cbv zeta in *.
  pose proof (rmin_pos _ _ _ _ _ _ _ _ _ V) as Hpos.
  pose proof (rmin_le_ravg _ _ _ _ _ _ _ _ _ V) as Hle.
  destruct (Rle_dec ravg u) as [H1|H1]; destruct (Rle_dec ravg v) as [H2|H2];
    try lra.
  - unfold Rmax in Hu2. destruct (Rle_dec u ravg); lra.
  - assert (sqrt (ravg * u) <= sqrt (ravg * v)) as Hs
      by (apply sqrt_le_1_alt; nra).
    destruct (Rlt_dec rmin (sqrt (ravg * u)));
      destruct (Rlt_dec rmin (sqrt (ravg * v))); lra.
Qed.

(** X10.  The adjustment only coarsens: the adjusted resolution is at
    least the desired one and at least [rmin], and at most the larger of
    the desired one and [ravg]. *)
Theorem rpp_between (j : nat) :
  Valid -> (2 <= Jdes)%Z -> (j < Z.to_nat Jdes)%nat ->
  exists v w,
    nth j rp NaN = Fin v /\ nth j rpp NaN = Fin w /\
    0 < v /\ v <= w /\ w <= Rmax v ravg /\ rmin <= w.
Proof.
  intros V HJ Hj.
  pose proof (rp_nth_Fin j V HJ Hj) as Ev.
  destruct (rpp_nth_value j _ V Hj Ev) as [Hv Ew].
  pose proof (adjusted_between _ V Hv) as (H1 & H2 & H3).
  eexists _, _. split; [exact Ev|]. split; [exact Ew|]. auto.
Qed.

(** X11.  The segments get no longer as the frequency goes up:
    [L[j] <= L[i]] for [i <= j]. *)
Theorem segment_lengths_decrease (i j : nat) :
  Valid -> (2 <= Jdes)%Z -> (i <= j < Z.to_nat Jdes)%nat ->
  exists a b,
    nth i L NaN = Fin (IZR a) /\ nth j L NaN = Fin (IZR b) /\ (b <= a)%Z.
Proof.
  intros V HJ [Hij Hj].
  assert (i < Z.to_nat Jdes)%nat as Hi by lia.
  pose proof (valid_inv _ _ _ _ _ _ _ _ _ V)
    as (Hlt & _ & _ & _ & Hfs & _ & _ & Hlo & _ & Hq).
  pose proof (rmin_pos _ _ _ _ _ _ _ _ _ V) as Hpos.
  pose proof (grid_step_pos V HJ) as Hc.
  set (c := (ln fmax - ln fmin) / IZR (Jdes - 1)) in *.
  pose proof (rp_nth_Fin i V HJ Hi) as Eu. pose proof (rp_nth_Fin j V HJ Hj) as Ev.
  fold c in Eu, Ev.
  set (u := fmin * exp (INR i * c) * (exp c - 1)) in *.
  set (v := fmin * exp (INR j * c) * (exp c - 1)) in *.
  destruct (rpp_nth_value i u V Hi Eu) as [Hu Eu'].
  destruct (rpp_nth_value j v V Hj Ev) as [Hv Ev'].
  assert (u <= v) as Huv.
  { assert (1 < exp c) by (rewrite <- exp_0; now apply exp_increasing).
    assert (exp (INR i * c) <= exp (INR j * c)) as He.
    { assert (INR i * c <= INR j * c) as Hle.
      { apply Rmult_le_compat_r; [lra|]. now apply le_INR. }
      destruct Hle as [Hl | ->]; [apply Rlt_le, exp_increasing, Hl|lra]. }
    unfold u, v. apply Rmult_le_compat_r; [lra|].
    apply Rmult_le_compat_l; lra. }
  pose proof (adjusted_mono u v V Hu Huv) as Hmono.
  pose proof (adjusted_between u V Hu) as (_ & _ & Hu3).
  pose proof (adjusted_between v V Hv) as (_ & _ & Hv3).
  cbv zeta in Hu3, Hv3.
  set (wu := if Rle_dec ravg u then u
             else if Rlt_dec rmin (sqrt (ravg * u)) then sqrt (ravg * u)
                  else rmin) in *.
  set (wv := if Rle_dec ravg v then v
             else if Rlt_dec rmin (sqrt (ravg * v)) then sqrt (ravg * v)
                  else rmin) in *.
  exists (round_half_even (fs / wu)), (round_half_even (fs / wv)).
  split; [apply (L_nth_eval _ _ _ _ _ _ _ _ i wu); trivial; lra|].
  split; [apply (L_nth_eval _ _ _ _ _ _ _ _ j wv); trivial; lra|].
  apply round_half_even_mono.
  unfold Rdiv. apply Rmult_le_compat_l; [lra|].
  apply Rinv_le_contravar; lra.
Qed.



(** X13.  With as many desired as minimum averages, [Kdes = Kmin], the
    geometric mean of case 2 is never taken: every frequency keeps its
    desired resolution or gets [rmin]. *)
Theorem equal_averages_no_case2 (j : nat) :
  Valid -> Kdes = Kmin -> nth j case2 false = false.
Proof.
  intros V HK.
  destruct (nth j case2 false) eqn:Hc; [exfalso|reflexivity].
  assert (j < Z.to_nat Jdes)%nat as Hj.
  { destruct (Nat.lt_ge_cases j (Z.to_nat Jdes)) as [|Hge]; [assumption|].
    rewrite nth_overflow in Hc by now rewrite case2_length.
    discriminate. }
  pose proof (rmin_pos _ _ _ _ _ _ _ _ _ V) as Hpos.
  assert (ravg = rmin) as E by (unfold Lpsd.ravg, Lpsd.rmin; now rewrite HK).
  rewrite case2_nth in Hc by assumption.
  apply andb_prop in Hc as [Ha Hb].
  destruct (nth j rp NaN) as [v| | |]; cbn in Ha, Hb; try discriminate.
  - apply Rltb_spec in Ha. unfold np_gt in Hb.
    destruct (Rltb (ravg * v) 0) eqn:En; cbn in Hb; [discriminate|].
    apply Rltb_spec in Hb.
    destruct (Rle_dec v 0) as [Hv|Hv].
    + assert (sqrt (ravg * v) <= sqrt 0) by (apply sqrt_le_1_alt; nra).
      rewrite sqrt_0 in *. lra.
    + assert (sqrt (ravg * v) < ravg); [|lra].
      rewrite <- (sqrt_square ravg) at 2 by lra. apply sqrt_lt_1_alt. nra.
  - unfold np_gt, signed_inf in Hb.
    rewrite Reqb_false, Rltb_false in Hb by lra. discriminate.
Qed.

(** ** The power estimates *)










(** ** A single frequency *)




(** ** The calibration factors *)




(** ** Segments without overlap *)

(** X17.  Without overlap, [xi = 0], the hop size is the segment length
    and the number of segments is the integer quotient of the record
    length by it: the segments tile the record from its start. *)
Theorem no_overlap_tiles (z : Z) :
  xi = 0 -> (1 <= z)%Z ->
  D (Fin (IZR z)) = Fin (IZR z) /\ K (Fin (IZR z)) = Fin (IZR (N / z)).
Proof.
  intros Hxi Hz.
  assert (round_half_even ((1 - xi) * IZR z) = z) as Ed.
  { rewrite Hxi. replace ((1 - 0) * IZR z) with (IZR z) by ring.
    apply round_half_even_IZR. }
  split.
  - unfold Lpsd.D. cbn [np_mul np_round]. now rewrite Ed.
  - rewrite K_Fin by lia. rewrite Ed. do 2 f_equal.
    apply Zfloor_eq.
    pose proof (Z.div_mod N z ltac:(lia)) as Hdm.
    pose proof (Z.mod_pos_bound N z ltac:(lia)) as Hmod.
    assert (IZR N = IZR z * IZR (N / z) + IZR (N mod z)) as E.
    { rewrite <- mult_IZR, <- plus_IZR. f_equal. exact Hdm. }
    assert (0 < IZR z) as Hz' by (apply IZR_lt; lia).
    assert ((IZR N - IZR z) / IZR z + 1 = IZR (N / z) + IZR (N mod z) / IZR z)
      as -> by (rewrite E; field; lra).
    assert (0 <= IZR (N mod z) / IZR z).
    { apply Rmult_le_pos; [apply IZR_le; lia|].
      apply Rlt_le, Rinv_0_lt_compat, Hz'. }
    assert (IZR (N mod z) / IZR z < 1).
    { apply Rmult_lt_reg_r with (IZR z); [assumption|].
      unfold Rdiv. rewrite Rmult_assoc, Rinv_l, Rmult_1_r, Rmult_1_l by lra.
      apply IZR_lt. lia. }
    lra.
Qed.

(** ** A constant added to the record *)

Lemma mapM_map_result {A B : Type} (h h' : A -> result B) (g : B -> B)
  (l : list A) :
  (forall a, In a l ->
     h' a = match h a with Ok b => Ok (g b) | Raise e => Raise e end) ->
  mapM h' l = match mapM h l with Ok bs => Ok (map g bs) | Raise e => Raise e end.
Proof.
  induction l as [|a l IH]; intros H; [reflexivity|].
  cbn [mapM]. rewrite (H a) by now left.
  destruct (h a) as [b|e]; cbn [bind]; [|reflexivity].
  rewrite IH by (intros; apply H; now right).
  destruct (mapM h l); reflexivity.
Qed.

Section Shift.

Variable c : R.

Local Abbreviation shifted := (map (fun v => v + c) x).
Local Abbreviation shift := (fun v => np_add v (Fin c)).

Lemma N_shifted : Lpsd.N shifted = N.
Proof. unfold Lpsd.N. now rewrite length_map. Qed.

Lemma getitem_shifted (i : npfloat) :
  getitem shifted i =
  match getitem x i with Ok v => Ok (shift v) | Raise e => Raise e end.
Proof.
  unfold getitem. destruct i; trivial. rewrite length_map.
  destruct ((0 <=? Zfloor r)%Z && (Zfloor r <? Z.of_nat (List.length x))%Z)
    eqn:E1.
  - apply andb_prop in E1 as [E1 E2].
    apply Z.leb_le in E1. apply Z.ltb_lt in E2.
    rewrite (nth_map_lt _ _ _ 0) by lia. reflexivity.
  - destruct ((- Z.of_nat (List.length x) <=? Zfloor r)%Z && (Zfloor r <? 0)%Z)
      eqn:E2; [|reflexivity].
    apply andb_prop in E2 as [E2 E3].
    apply Z.leb_le in E2. apply Z.ltb_lt in E3.
    rewrite (nth_map_lt _ _ _ 0) by lia. reflexivity.
Qed.

Lemma segments_shifted (Lj : npfloat) :
  Lpsd.segments shifted xi Lj =
  match segments Lj with
  | Ok data => Ok (map (map shift) data)
  | Raise e => Raise e
  end.
Proof.
  unfold Lpsd.segments, Lpsd.K. rewrite N_shifted.
  destruct (np_arange Lj) as [ns|e]; cbn [bind]; [|reflexivity].
  destruct (np_arange _) as [ks|e]; cbn [bind]; [|reflexivity].
  apply mapM_map_result. intros row _.
  apply mapM_map_result. intros i _. apply getitem_shifted.
Qed.

Lemma segments_entries (Lj : npfloat) (data : list (list npfloat)) :
  segments Lj = Ok data ->
  forall seg, In seg data -> forall v, In v seg -> exists u, v = Fin u.
Proof.
  unfold Lpsd.segments. intros H seg Hseg v Hv.
  apply bind_ok in H as (ns & _ & H). apply bind_ok in H as (ks & _ & H).
  destruct (mapM_ok_In _ _ _ _ H Hseg) as (row & _ & Hrow).
  destruct (mapM_ok_In _ _ _ _ Hrow Hv) as (i & _ & Hi).
  unfold getitem in Hi. destruct i; try discriminate.
  repeat match type of Hi with
         | context [if ?b then _ else _] => destruct b
         end; inversion Hi; eauto.
Qed.

Lemma np_sum_shift (l : list npfloat) :
  (forall v, In v l -> exists u, v = Fin u) ->
  exists s, np_sum l = Fin s /\
            np_sum (map shift l) = Fin (s + INR (List.length l) * c).
Proof.
  induction l as [|v l IH]; intros H.
  - exists 0. split; [reflexivity|]. simpl. apply Fin_eq. ring.
  - destruct (H v) as [u ->]; [now left|].
    destruct IH as (s & Hs & Hs'); [intros; apply H; now right|].
    exists (u + s). split.
    + change (np_sum (Fin u :: l)) with (np_add (Fin u) (np_sum l)).
      now rewrite Hs.
    + change (np_sum (map shift (Fin u :: l)))
        with (np_add (Fin (u + c)) (np_sum (map shift l))).
      rewrite Hs'. cbn [np_add]. apply Fin_eq.
      change (List.length (Fin u :: l)) with (S (List.length l)).
      rewrite S_INR. ring.
Qed.

(** Line 134 takes the added constant away with the mean. *)
Lemma detrend_shifted (data : list (list npfloat)) :
  (forall seg, In seg data -> forall v, In v seg -> exists u, v = Fin u) ->
  Lpsd.detrend (map (map shift) data) = Lpsd.detrend data.
Proof.
  intros Hfin. unfold Lpsd.detrend. rewrite map_map.
  apply map_ext_in. intros seg Hseg. rewrite map_map.
  apply map_ext_in. intros v Hv.
  destruct (Hfin seg Hseg v Hv) as [u ->].
  rewrite <- concat_map.
  destruct (np_sum_shift (List.concat data)) as (s & Hs & Hs').
  { intros w Hw. apply in_concat in Hw as (s' & Hs' & Hw). eauto. }
  unfold np_mean. rewrite length_map, Hs, Hs'.
  assert (INR (List.length (List.concat data)) <> 0) as Hn.
  { apply not_0_INR.
    assert (In (Fin u) (List.concat data)) as Hin by (apply in_concat; eauto).
    destruct (List.concat data); [contradiction|simpl; lia]. }
  cbn [np_div]. rewrite Reqb_false by assumption.
  cbn [np_add np_sub np_neg]. apply Fin_eq. field. assumption.
Qed.

Lemma bin_shifted (Lj mj : npfloat) :
  Lpsd.bin shifted windowfcn xi Lj mj = bin Lj mj.
Proof.
  unfold Lpsd.bin, Lpsd.weighted. rewrite segments_shifted.
  destruct (segments Lj) as [data|e] eqn:Hd; cbn [bind]; [|reflexivity].
  rewrite detrend_shifted; [reflexivity|].
  now apply (segments_entries Lj).
Qed.

(** X18.  Adding a constant to every sample of the record changes nothing
    in the outcome of [lpsd]: the same exception, or the same power
    estimates and frequencies. *)
Theorem lpsd_offset_invariant :
  Lpsd.lpsd shifted windowfcn fmin fmax Jdes Kdes Kmin fs xi = lpsd.
Proof.
  assert (Lpsd.L shifted fmin fmax Jdes Kdes Kmin fs xi = L) as EL.
  { unfold Lpsd.L, Lpsd.rpp, Lpsd.rpp_case2, Lpsd.rpp_case1, Lpsd.case3,
      Lpsd.case2, Lpsd.case1, Lpsd.ravg, Lpsd.rmin.
    now rewrite N_shifted. }
  assert (Lpsd.m shifted fmin fmax Jdes Kdes Kmin fs xi = m) as Em.
  { unfold Lpsd.m, Lpsd.r. now rewrite EL. }
  assert (Lpsd.check_range shifted fmin fmax fs = check_range) as Er.
  { unfold Lpsd.check_range. now rewrite N_shifted. }
  unfold Lpsd.lpsd, Lpsd.lpsd_locals. rewrite Er, EL, Em.
  destruct check_arguments; cbn [bind]; [|reflexivity].
  destruct check_range; cbn [bind]; [|reflexivity].
  assert (mapM (fun lm => Lpsd.bin shifted windowfcn xi (fst lm) (snd lm))
            (combine L m) =
          mapM (fun lm => bin (fst lm) (snd lm)) (combine L m)) as ->.
  { generalize (combine L m). intros l.
    induction l as [|lm0 l IH]; [reflexivity|].
    cbn [mapM]. now rewrite bin_shifted, IH. }
  reflexivity.
Qed.

End Shift.

(** ** The record times a constant *)

Lemma mapM_map {A A' B : Type} (h : A' -> result B) (k : A -> A') (l : list A) :
  mapM h (map k l) = mapM (fun a => h (k a)) l.
Proof.
  induction l as [|u l IH]; [reflexivity|].
  cbn [map mapM]. now rewrite IH.
Qed.

Lemma zip_with_map_l {A A' B C : Type} (op : A' -> B -> C) (k : A -> A')
  (a : list A) (b : list B) :
  zip_with op (map k a) b = zip_with (fun u v => op (k u) v) a b.
Proof.
  revert b. induction a as [|u a IH]; intros [|v b]; simpl; trivial.
  now rewrite IH.
Qed.

Lemma zip_with_ext {A B C : Type} (op op' : A -> B -> C)
  (a : list A) (b : list B) :
  (forall u v, op u v = op' u v) -> zip_with op a b = zip_with op' a b.
Proof.
  intros H. revert b. induction a as [|u a IH]; intros [|v b]; simpl; trivial.
  now rewrite H, IH.
Qed.

Lemma zip_with_map_out {A B C C' : Type} (op : A -> B -> C) (h : C -> C')
  (a : list A) (b : list B) :
  zip_with (fun u v => h (op u v)) a b = map h (zip_with op a b).
Proof.
  revert b. induction a as [|u a IH]; intros [|v b]; simpl; trivial.
  now rewrite IH.
Qed.

(** An operation that commutes with a map of its left operand does so
    under singleton expansion too. *)
Lemma broadcast_map_l {A B C : Type} (op : A -> B -> C) (k : A -> A)
  (h : C -> C) (a : list A) (b : list B) :
  (forall u v, op (k u) v = h (op u v)) ->
  broadcast op (map k a) b =
  match broadcast op a b with Ok c => Ok (map h c) | Raise e => Raise e end.
Proof.
  intros H. unfold broadcast. rewrite length_map.
  destruct (List.length a =? List.length b)%nat.
  - f_equal. rewrite zip_with_map_l, <- zip_with_map_out.
    now apply zip_with_ext.
  - destruct a as [|u [|u' a]].
    + destruct b as [|v [|v' b]]; reflexivity.
    + cbn [map]. f_equal. rewrite map_map. apply map_ext. intros; apply H.
    + destruct b as [|v [|v' b]]; try reflexivity.
      change (map k (u :: u' :: a)) with (k u :: k u' :: map k a).
      cbv iota beta. f_equal.
      change (k u :: k u' :: map k a) with (map k (u :: u' :: a)).
      rewrite !map_map. apply map_ext. intros; apply H.
Qed.

Section Scale.

Variable a : R.

Local Abbreviation scaled := (map (fun v => a * v) x).
Local Abbreviation scale := (fun v => np_mul (Fin a) v).
Local Abbreviation cscale := (fun z => np_scale (Fin a) z).

Lemma N_scaled : Lpsd.N scaled = N.
Proof. unfold Lpsd.N. now rewrite length_map. Qed.

Lemma getitem_scaled (i : npfloat) :
  getitem scaled i =
  match getitem x i with Ok v => Ok (scale v) | Raise e => Raise e end.
Proof.
  unfold getitem. destruct i; trivial. rewrite length_map.
  destruct ((0 <=? Zfloor r)%Z && (Zfloor r <? Z.of_nat (List.length x))%Z)
    eqn:E1.
  - apply andb_prop in E1 as [E1 E2].
    apply Z.leb_le in E1. apply Z.ltb_lt in E2.
    rewrite (nth_map_lt _ _ _ 0) by lia. reflexivity.
  - destruct ((- Z.of_nat (List.length x) <=? Zfloor r)%Z && (Zfloor r <? 0)%Z)
      eqn:E2; [|reflexivity].
    apply andb_prop in E2 as [E2 E3].
    apply Z.leb_le in E2. apply Z.ltb_lt in E3.
    rewrite (nth_map_lt _ _ _ 0) by lia. reflexivity.
Qed.

Lemma segments_scaled (Lj : npfloat) :
  Lpsd.segments scaled xi Lj =
  match segments Lj with
  | Ok data => Ok (map (map scale) data)
  | Raise e => Raise e
  end.
Proof.
  unfold Lpsd.segments, Lpsd.K. rewrite N_scaled.
  destruct (np_arange Lj) as [ns|e]; cbn [bind]; [|reflexivity].
  destruct (np_arange _) as [ks|e]; cbn [bind]; [|reflexivity].
  apply mapM_map_result. intros row _.
  apply mapM_map_result. intros i _. apply getitem_scaled.
Qed.

Lemma np_sum_scale (l : list npfloat) :
  (forall v, In v l -> exists u, v = Fin u) ->
  exists s, np_sum l = Fin s /\ np_sum (map scale l) = Fin (a * s).
Proof.
  induction l as [|v l IH]; intros H.
  - exists 0. split; [reflexivity|]. simpl. apply Fin_eq. ring.
  - destruct (H v) as [u ->]; [now left|].
    destruct IH as (s & Hs & Hs'); [intros; apply H; now right|].
    exists (u + s). split.
    + change (np_sum (Fin u :: l)) with (np_add (Fin u) (np_sum l)).
      now rewrite Hs.
    + change (np_sum (map scale (Fin u :: l)))
        with (np_add (Fin (a * u)) (np_sum (map scale l))).
      rewrite Hs'. cbn [np_add]. apply Fin_eq. ring.
Qed.

(** Line 134 on the scaled segments gives the scaled result. *)
Lemma detrend_scaled (data : list (list npfloat)) :
  (forall seg, In seg data -> forall v, In v seg -> exists u, v = Fin u) ->
  Lpsd.detrend (map (map scale) data) = map (map scale) (Lpsd.detrend data).
Proof.
  intros Hfin. unfold Lpsd.detrend. rewrite !map_map.
  apply map_ext_in. intros seg Hseg. rewrite !map_map.
  apply map_ext_in. intros v Hv.
  destruct (Hfin seg Hseg v Hv) as [u ->].
  rewrite <- concat_map.
  destruct (np_sum_scale (List.concat data)) as (s & Hs & Hs').
  { intros w Hw. apply in_concat in Hw as (s' & Hs' & Hw). eauto. }
  unfold np_mean. rewrite length_map, Hs, Hs'.
  assert (INR (List.length (List.concat data)) <> 0) as Hn.
  { apply not_0_INR.
    assert (In (Fin u) (List.concat data)) as Hin by (apply in_concat; eauto).
    destruct (List.concat data); [contradiction|simpl; lia]. }
  cbn [np_div]. rewrite Reqb_false by assumption.
  cbn [np_mul np_add np_sub np_neg]. apply Fin_eq. field. assumption.
Qed.

Lemma np_scale_scale (d : npfloat) (w : npcomplex) :
  np_scale (scale d) w = cscale (np_scale d w).
Proof.
  destruct d as [u| | |], w as [q|]; cbn [np_mul np_scale]; trivial;
    try (unfold signed_inf;
         repeat match goal with
                | |- context [if ?b then _ else _] => destruct b
                end; reflexivity).
  cbn [Re Im]. apply CFin_eq; ring.
Qed.

Lemma np_csum_scale (l : list npcomplex) :
  np_csum (map cscale l) = cscale (np_csum l).
Proof.
  induction l as [|z l IH].
  - simpl. apply CFin_eq; ring.
  - change (np_csum (map cscale (z :: l)))
      with (np_cadd (cscale z) (np_csum (map cscale l))).
    change (np_csum (z :: l)) with (np_cadd z (np_csum l)).
    rewrite IH. destruct z as [q|], (np_csum l) as [q'|]; simpl; trivial.
    apply CFin_eq; ring.
Qed.

Lemma power_scaled (wd : list (list npcomplex)) :
  Lpsd.power (map (map cscale) wd) = np_mul (Fin (a * a)) (Lpsd.power wd).
Proof.
  unfold Lpsd.power. rewrite <- concat_map, np_csum_scale.
  destruct (np_csum (List.concat wd)) as [q|]; [|reflexivity].
  unfold np_sq. cbn [np_scale np_cabs np_mul Re Im]. apply Fin_eq.
  assert (0 <= Re q * Re q + Im q * Im q) as Hnn by nra.
  rewrite !sqrt_sqrt; nra.
Qed.

Lemma weighted_scaled (Lj mj : npfloat) :
  Lpsd.weighted scaled windowfcn xi Lj mj =
  match weighted Lj mj with
  | Ok wd => Ok (map (map cscale) wd)
  | Raise e => Raise e
  end.
Proof.
  unfold Lpsd.weighted. rewrite segments_scaled.
  destruct (segments Lj) as [data|e] eqn:Hd; cbn [bind]; [|reflexivity].
  destruct (weights Lj mj) as [ws|e]; cbn [bind]; [|reflexivity].
  rewrite detrend_scaled by now apply (segments_entries Lj).
  rewrite mapM_map. apply mapM_map_result. intros seg _.
  apply broadcast_map_l. apply np_scale_scale.
Qed.

Lemma bin_scaled (Lj mj : npfloat) :
  Lpsd.bin scaled windowfcn xi Lj mj =
  match bin Lj mj with
  | Ok b => Ok (np_mul (Fin (a * a)) (fst b), snd b)
  | Raise e => Raise e
  end.
Proof.
  unfold Lpsd.bin. rewrite weighted_scaled.
  destruct (weighted Lj mj) as [wd|e]; cbn [bind]; [|reflexivity].
  now rewrite power_scaled.
Qed.

(** X19.  The power estimates are quadratic in the record: multiplying
    every sample by [a] multiplies every estimate by [a * a] and leaves
    the frequencies, and the exceptions, as they are. *)
Theorem lpsd_scale_quadratic :
  Lpsd.lpsd scaled windowfcn fmin fmax Jdes Kdes Kmin fs xi =
  (st <- lpsd_locals ;;
   Ok [Array (map (fun p => np_mul (Fin (a * a)) p) (Lpsd.Pxx st)); Array f]).
Proof.
  assert (Lpsd.L scaled fmin fmax Jdes Kdes Kmin fs xi = L) as EL.
  { unfold Lpsd.L, Lpsd.rpp, Lpsd.rpp_case2, Lpsd.rpp_case1, Lpsd.case3,
      Lpsd.case2, Lpsd.case1, Lpsd.ravg, Lpsd.rmin.
    now rewrite N_scaled. }
  assert (Lpsd.m scaled fmin fmax Jdes Kdes Kmin fs xi = m) as Em.
  { unfold Lpsd.m, Lpsd.r. now rewrite EL. }
  assert (Lpsd.check_range scaled fmin fmax fs = check_range) as Er.
  { unfold Lpsd.check_range. now rewrite N_scaled. }
  unfold Lpsd.lpsd, Lpsd.lpsd_locals. rewrite Er, EL, Em.
  destruct check_arguments; cbn [bind]; [|reflexivity].
  destruct check_range; cbn [bind]; [|reflexivity].
  rewrite (mapM_map_result
             (fun lm => bin (fst lm) (snd lm))
             (fun lm => Lpsd.bin scaled windowfcn xi (fst lm) (snd lm))
             (fun b => (np_mul (Fin (a * a)) (fst b), snd b)))
    by (intros; apply bin_scaled).
  destruct (mapM _ (combine L m)) as [bins|e]; cbn [bind]; [|reflexivity].
  cbn [Lpsd.Pxx]. now rewrite !map_map.
Qed.

End Scale.

(** ** A single segment *)

(** X20.  For a frequency with a single segment the code does what its
    comments say: line 134 takes the segment's own mean from it, and line
    142 gives the squared magnitude of the segment's own sum. *)
Theorem single_segment_agrees (seg : list npfloat) (row : list npcomplex) :
  Lpsd.detrend [seg] = Spec.detrend_per_segment [seg] /\
  Lpsd.power [row] = Spec.power_per_segment [row].
Proof.
  split.
  - unfold Lpsd.detrend, Spec.detrend_per_segment.
    cbn [List.concat map]. now rewrite app_nil_r.
  - unfold Lpsd.power, Spec.power_per_segment, np_mean.
    cbn [List.concat map np_sum fold_right List.length INR].
    rewrite app_nil_r.
    destruct (np_csum row) as [q|]; [|reflexivity].
    unfold np_sq. cbn [np_cabs np_mul np_add np_div].
    rewrite Reqb_false by lra. apply Fin_eq. field.
Qed.

End Behaviour.

(** ** The further properties on the record of four samples *)


Lemma valid_record4_zero : valid record4 rectangular 1 2 2 1 1 4 0.
Proof. apply valid_record4. lra. Qed.

Lemma segments_fit_record_witness :
  (0 <= 2 <= Lpsd.N record4)%Z /\
  (1 <= round_half_even ((1 - 0) * IZR 2))%Z /\
  exists d k,
    Lpsd.D 0 (Fin (IZR 2)) = Fin (IZR d) /\
    Lpsd.K record4 0 (Fin (IZR 2)) = Fin (IZR k) /\
    (1 <= d)%Z /\ (1 <= k)%Z /\
    ((k - 1) * d + 2 <= Lpsd.N record4)%Z /\ (Lpsd.N record4 < k * d + 2)%Z.
Proof.
  assert (0 <= 2 <= Lpsd.N record4)%Z as Hz by (unfold Lpsd.N; simpl; lia).
  assert (1 <= round_half_even ((1 - 0) * IZR 2))%Z as Hd.
  { replace ((1 - 0) * IZR 2) with (IZR 2) by lra.
    rewrite round_half_even_IZR. lia. }
  split; [exact Hz|]. split; [exact Hd|].
  exact (segments_fit_record record4 0 2 Hz Hd).
Defined.




Lemma rpp_between_witness :
  valid record4 rectangular 1 2 2 4 1 4 0 /\ (2 <= 2)%Z /\
  (0 < Z.to_nat 2)%nat /\
  exists v w,
    nth 0 (Lpsd.rp 1 2 2) NaN = Fin v /\
    nth 0 (Lpsd.rpp record4 1 2 2 4 1 4 0) NaN = Fin w /\
    0 < v /\ v <= w /\ w <= Rmax v (Lpsd.ravg record4 4 4 0) /\
    Lpsd.rmin record4 1 4 0 <= w.
Proof.
  assert (0 < Z.to_nat 2)%nat as Hj by (simpl; lia).
  assert (2 <= 2)%Z as HJ by lia.
  split; [exact valid_record4_four|]. split; [exact HJ|]. split; [exact Hj|].
  exact (rpp_between record4 rectangular 1 2 2 4 1 4 0 0
           valid_record4_four HJ Hj).
Defined.

Lemma segment_lengths_decrease_witness :
  valid record4 rectangular 1 2 2 1 1 4 0 /\ (2 <= 2)%Z /\
  (0 <= 1 < Z.to_nat 2)%nat /\
  exists a b,
    nth 0 (Lpsd.L record4 1 2 2 1 1 4 0) NaN = Fin (IZR a) /\
    nth 1 (Lpsd.L record4 1 2 2 1 1 4 0) NaN = Fin (IZR b) /\ (b <= a)%Z.
Proof.
  assert (0 <= 1 < Z.to_nat 2)%nat as Hj by (simpl; lia).
  assert (2 <= 2)%Z as HJ by lia.
  split; [exact valid_record4_zero|]. split; [exact HJ|]. split; [exact Hj|].
  exact (segment_lengths_decrease record4 rectangular 1 2 2 1 1 4 0 0 1
           valid_record4_zero HJ Hj).
Defined.


Lemma equal_averages_no_case2_witness :
  valid record4 rectangular 1 2 2 1 1 4 0 /\ 1%Z = 1%Z /\
  nth 0 (Lpsd.case2 record4 1 2 2 1 1 4 0) false = false.
Proof.
  split; [exact valid_record4_zero|]. split; [reflexivity|].
  exact (equal_averages_no_case2 record4 rectangular 1 2 2 1 1 4 0 0
           valid_record4_zero eq_refl).
Defined.



Lemma no_overlap_tiles_witness :
  0 = 0 /\ (1 <= 2)%Z /\
  Lpsd.D 0 (Fin (IZR 2)) = Fin (IZR 2) /\
  Lpsd.K record4 0 (Fin (IZR 2)) = Fin (IZR (Lpsd.N record4 / 2)).
Proof.
  assert (1 <= 2)%Z as Hz by lia.
  split; [reflexivity|]. split; [exact Hz|].
  exact (no_overlap_tiles record4 0 2 eq_refl Hz).
Defined.

(** *** The record of four samples with a single frequency *)


